(** * Verification of the rdb storage engine core (src/enc.rs, src/db.rs,
    src/mmap_array.rs, src/constants.rs).

    The Rust code works on raw pointers into a memory map.  A pointer is
    modelled as a byte-addressed memory [Z -> Z] (offset from the pointer to
    the byte stored there); a write is an (offset, byte) pair, so a function
    that writes through a pointer returns the list of writes it performs in
    order, together with its return value. *)

From Stdlib Require Import String ZArith Lia List Bool.
From coqutil Require Import Z.bitblast.
Import ListNotations.
Local Open Scope Z_scope.

(** ** Machine integers *)

Definition u64_max : Z := 2 ^ 64 - 1.
Definition is_u64 (v : Z) : Prop := 0 <= v <= u64_max.
Definition is_u32 (v : Z) : Prop := 0 <= v < 2 ^ 32.

(** [u64::leading_zeros] *)
Definition leading_zeros (v : Z) : Z :=
  if v =? 0 then 64 else 63 - Z.log2 v.

(** ** Memory behind a raw pointer *)

Definition Mem := Z -> Z.
Definition Write := (Z * Z)%type.

(** Performing writes in order ([encode_with_offset::<u8>] stores one byte). *)
Definition store (m : Mem) (ws : list Write) : Mem :=
  fold_left (fun m '(o, b) => fun x => if x =? o then b else m x) ws m.

(** [from_ptr_with_offset::<u8>(p, off)] *)
Definition load (m : Mem) (off : Z) : Z := m off.

(** The byte offsets a list of writes touches. *)
Definition offsets (ws : list Write) : list Z := map fst ws.

(** ** enc.rs: the varint codec *)
Module Varint.

Definition VARINT_CUT1 : Z := 201.
Definition VARINT_CUT2 : Z := 249.

(** The loop [for i in 1..bytes + 1 { encode_with_offset(p, i, v as u8); v >>= 8; }]
    started at offset [i] with [fuel] iterations left. *)
Fixpoint enc_loop (i : Z) (fuel : nat) (v : Z) : list Write :=
  match fuel with
  | O => []
  | S f => (i, Z.land v 255) :: enc_loop (i + 1) f (Z.shiftr v 8)
  end.

(** [encode_varint_u64(p, v)]: the value it returns and the writes it makes
    through [p]. *)
Definition encode_varint_u64 (v : Z) : Z * list Write :=
  if v <? VARINT_CUT1 then
    (1, [(0, Z.land v 255)])
  else if v <? VARINT_CUT1 + 255 + 256 * (VARINT_CUT2 - VARINT_CUT1 - 1) then
    let v := v - 200 in
    (2, [(0, Z.land (Z.shiftr v 8 + VARINT_CUT1) 255); (1, Z.land v 255)])
  else
    let bits := 64 - leading_zeros v in
    let bytes := (bits + 7) / 8 in
    let b0 := VARINT_CUT2 + (bytes - 2) in
    (bytes, (0, Z.land b0 255) :: enc_loop 1 (Z.to_nat bytes) v).

(** The loop [for i in 2..bytes + 1 { b0 = p[i]; v |= b0 << (8 * (i - 1)); }]
    started at [i] with [fuel] iterations left. *)
Fixpoint dec_loop (m : Mem) (i : Z) (fuel : nat) (v : Z) : Z :=
  match fuel with
  | O => v
  | S f => dec_loop m (i + 1) f (Z.lor v (Z.shiftl (load m i) (8 * (i - 1))))
  end.

(** [decode_varint_u64(p)] *)
Definition decode_varint_u64 (m : Mem) : Z :=
  let b0 := load m 0 in
  if b0 <? VARINT_CUT1 then b0
  else if b0 <? VARINT_CUT2 then
    VARINT_CUT1 - 1 + Z.shiftl (b0 - VARINT_CUT1) 8 + load m 1
  else
    let bytes := b0 - VARINT_CUT2 + 2 in
    dec_loop m 2 (Z.to_nat (bytes + 1 - 2)) (load m 1).

(** Encode [v] into memory [m] and decode what is there afterwards. *)
Definition roundtrip (m : Mem) (v : Z) : Z :=
  decode_varint_u64 (store m (snd (encode_varint_u64 v))).

End Varint.

(** ** errors.rs *)

(** The I/O errors the model distinguishes. *)
Inductive IoError :=
| IoNotFound
| IoOther (code : nat).

Inductive Error :=
| DatabaseNotFound
| DatabaseInvalid
| DatabaseVersionMismatch
| ChecksumError
| Io (e : IoError).

Inductive Result (A : Type) :=
| Ok (a : A)
| Err (e : Error).
Arguments Ok {A} a.
Arguments Err {A} e.

(** ** constants.rs *)

Definition OS_PAGE_SIZE : Z := 4096.
Definition MAGIC_KEY : Z := 195936478. (* 0xBADC0DE *)
Definition MAGIC_KEY_SIZE : Z := 32.
Definition VERSION : Z := 1.
Definition VERSION_SIZE : Z := 32.

(** ** std's [DefaultHasher]: SipHash-1-3 with the keys (0, 0) *)
Module Sip.

Definition wadd (a b : Z) : Z := (a + b) mod 2 ^ 64.
Definition rotl (x r : Z) : Z :=
  Z.land (Z.lor (Z.shiftl x r) (Z.shiftr x (64 - r))) u64_max.

Record State := mkState { v0 : Z; v1 : Z; v2 : Z; v3 : Z }.

(** The [compress!] macro: one SipRound. *)
Definition compress (s : State) : State :=
  let '(mkState v0 v1 v2 v3) := s in
  let v0 := wadd v0 v1 in let v1 := rotl v1 13 in let v1 := Z.lxor v1 v0 in
  let v0 := rotl v0 32 in
  let v2 := wadd v2 v3 in let v3 := rotl v3 16 in let v3 := Z.lxor v3 v2 in
  let v0 := wadd v0 v3 in let v3 := rotl v3 21 in let v3 := Z.lxor v3 v0 in
  let v2 := wadd v2 v1 in let v1 := rotl v1 17 in let v1 := Z.lxor v1 v2 in
  let v2 := rotl v2 32 in
  mkState v0 v1 v2 v3.

(** [reset] with [k0 = k1 = 0]. *)
Definition init : State :=
  mkState 8317987319222330741 7237128888997146477
          7816392313619706465 8387220255154660723.

(** Little-endian load of up to eight bytes. *)
Fixpoint le_word (bs : list Z) : Z :=
  match bs with
  | [] => 0
  | b :: bs => Z.lor b (Z.shiftl (le_word bs) 8)
  end.

(** One message word: [v3 ^= m; c_rounds; v0 ^= m] (one c-round for 1-3). *)
Definition absorb (s : State) (m : Z) : State :=
  let s := compress (mkState (v0 s) (v1 s) (v2 s) (Z.lxor (v3 s) m)) in
  mkState (Z.lxor (v0 s) m) (v1 s) (v2 s) (v3 s).

(** The full 8-byte words of the stream, then the tail. *)
Fixpoint absorb_all (fuel : nat) (s : State) (bs : list Z) : State * list Z :=
  match fuel with
  | O => (s, bs)
  | S f =>
      if (8 <=? length bs)%nat
      then absorb_all f (absorb s (le_word (firstn 8 bs))) (skipn 8 bs)
      else (s, bs)
  end.

(** [finish]: the last block carries the length in its top byte, then
    [v2 ^= 0xff] and three d-rounds. *)
Definition hash_bytes (bs : list Z) : Z :=
  let '(s, tail) := absorb_all (length bs) init bs in
  let b := Z.lor (Z.shiftl (Z.land (Z.of_nat (length bs)) 255) 56) (le_word tail) in
  let s := compress (mkState (v0 s) (v1 s) (v2 s) (Z.lxor (v3 s) b)) in
  let s := mkState (Z.lxor (v0 s) b) (v1 s) (Z.lxor (v2 s) 255) (v3 s) in
  let s := compress (compress (compress s)) in
  Z.lxor (Z.lxor (v0 s) (v1 s)) (Z.lxor (v2 s) (v3 s)).

End Sip.

(** [x.to_ne_bytes()] on a little-endian target, [n] bytes. *)
Fixpoint le_bytes (n : nat) (x : Z) : list Z :=
  match n with
  | O => []
  | S n => Z.land x 255 :: le_bytes n (Z.shiftr x 8)
  end.

(** ** db.rs: Meta *)

Record Meta := mkMeta {
  magic : Z;
  version : Z;
  flags : Z;
  page_size : Z;
  checksum : Z;
  transaction_id : Z;
  little_endian : bool;
  root : Z;
  freelist : Z;
  pgid : Z
}.

(** [cfg!(target_endian = "little")]: the code is built for x86. *)
Definition target_little_endian : bool := true.

Definition Meta_default : Meta :=
  mkMeta MAGIC_KEY VERSION 0 OS_PAGE_SIZE 0 0 target_little_endian 0 0 0.

(** The byte stream [#[derive(Hash)]] feeds the hasher: every field in
    declaration order ([u32] as 4 bytes, [u64] as 8, [bool] as 1). *)
Definition meta_hash_input (m : Meta) : list Z :=
  le_bytes 4 (magic m) ++ le_bytes 4 (version m) ++ le_bytes 4 (flags m) ++
  le_bytes 4 (page_size m) ++ le_bytes 8 (checksum m) ++
  le_bytes 8 (transaction_id m) ++ [if little_endian m then 1 else 0] ++
  le_bytes 4 (root m) ++ le_bytes 4 (freelist m) ++ le_bytes 4 (pgid m).

(** [hash(&self)] in [Meta::validate]: [&Meta] hashes as the [Meta]. *)
Definition hash (m : Meta) : Z := Sip.hash_bytes (meta_hash_input m).

(** [Meta::validate] *)
Definition validate (m : Meta) : Result unit :=
  if negb (magic m =? MAGIC_KEY) then Err DatabaseInvalid
  else if negb (version m =? VERSION) then Err DatabaseVersionMismatch
  else if negb (checksum m =? 0) && negb (checksum m =? hash m) then Err ChecksumError
  else Ok tt.

(** The checksum as the spec describes it: the same hash over every field
    except [checksum]. *)
Definition spec_checksum (m : Meta) : Z :=
  Sip.hash_bytes
    (le_bytes 4 (magic m) ++ le_bytes 4 (version m) ++ le_bytes 4 (flags m) ++
     le_bytes 4 (page_size m) ++
     le_bytes 8 (transaction_id m) ++ [if little_endian m then 1 else 0] ++
     le_bytes 4 (root m) ++ le_bytes 4 (freelist m) ++ le_bytes 4 (pgid m)).

(** ** db.rs: PageArray *)

(** What a pointer-returning accessor does: return the offset of the page
    from the start of the map, or abort on a failed [assert!]. *)
Inductive Access :=
| PagePtr (off : Z)
| AssertFailed.

(** Only the length of the memory map matters to the accessors. *)
Record PageArray := mkPageArray { data_len : Z }.

(** [PageArray::check_bounds]: does [assert!(len >= OS_PAGE_SIZE * id)] hold? *)
Definition check_bounds (pa : PageArray) (id : Z) : bool :=
  OS_PAGE_SIZE * id <=? data_len pa.

(** [PageArray::page_ptr] *)
Definition page_ptr (pa : PageArray) (id : Z) : Access :=
  if id =? 0 then PagePtr 0
  else if check_bounds pa id then PagePtr (OS_PAGE_SIZE * id)
  else AssertFailed.

(** [PageArray::page_mut_ptr] *)
Definition page_mut_ptr (pa : PageArray) (id : Z) : Access :=
  if id =? 0 then PagePtr 0
  else if check_bounds pa id then PagePtr (OS_PAGE_SIZE * id)
  else AssertFailed.

(** ** mmap_array.rs: JumpTable *)

Inductive Outcome (A : Type) :=
| Done (a : A)
| Panicked (msg : string).
Arguments Done {A} a.
Arguments Panicked {A} msg.

Definition HEADER_SIZE : Z := MAGIC_KEY_SIZE + VERSION_SIZE.

Record JumpTable := mkJumpTable {
  jt_data_len : Z;  (* length of the memory map [data] *)
  jt_version : Z;
  jt_magic : Z;
  jt_length : Z
}.

(** [JumpTable::calculate_length] *)
Definition calculate_length (capacity : Z) : Z := HEADER_SIZE + capacity * 8.

(** The table [JumpTable::new(path, capacity)] returns (the file is set to
    [calculate_length capacity] bytes and mapped whole). *)
Definition JumpTable_new (capacity : Z) : JumpTable :=
  mkJumpTable (calculate_length capacity) VERSION MAGIC_KEY capacity.

(** [JumpTable::set]: the writes of [encode_with_offset::<u64>]. *)
Definition jt_set (jt : JumpTable) (index value : Z) : Outcome (list Write) :=
  if jt_length jt <? index then
    let off := 64 * index + HEADER_SIZE in
    Done (combine (map (fun k => off + Z.of_nat k) (seq 0 8)) (le_bytes 8 value))
  else Panicked "Index out of bound"%string.

(** [JumpTable::get]: [from_ptr_with_offset::<u64>] reads eight bytes. *)
Definition jt_get (jt : JumpTable) (m : Mem) (index : Z) : Outcome Z :=
  if jt_length jt <? index then
    let off := 64 * index + HEADER_SIZE in
    Done (Sip.le_word (map (fun k => load m (off + Z.of_nat k)) (seq 0 8)))
  else Panicked "Index out of bound"%string.

(** ** db.rs: Db::open, Db::create, Db::init *)

(** The database file at the path: its length and the two Meta copies
    stored at the start of pages 0 and 1, [None] for a copy whose bytes
    the file does not hold. *)
Record DataFile := mkDataFile {
  file_len : Z;
  file_meta0 : option Meta;
  file_meta1 : option Meta
}.

(** A Meta read from zeroed bytes. *)
Definition zero_meta : Meta := mkMeta 0 0 0 0 0 0 false 0 0 0.

(** The file [OpenOptions::open] creates: no bytes at all. *)
Definition empty_file : DataFile := mkDataFile 0 None None.

(** [File::set_len(n)] as [Db::create] calls it, with [n] of four pages:
    the file grows to [n] bytes, the new bytes zeroed, so a Meta copy the
    file did not hold reads as zeroed bytes. *)
Definition set_len (n : Z) (f : DataFile) : DataFile :=
  let fill o := match o with Some m => Some m | None => Some zero_meta end in
  mkDataFile n (fill (file_meta0 f)) (fill (file_meta1 f)).

(** The file system as [open] sees it: the file at the path, if any, and
    whether this process holds the exclusive lock on it.  That
    [lock_exclusive] blocks while another process holds the lock is not
    modelled. *)
Record Fs := mkFs {
  fs_file : option DataFile;
  fs_locked : bool
}.

(** The system calls [create] and [init] make; the environment says which
    of them the OS fails, and with which error. *)
Inductive IoOp := OpOpen | OpSetLen | OpMmap | OpLock | OpMetadata.
Definition IoEnv := IoOp -> option IoError.

Definition io_ok : IoEnv := fun _ => None.

(** State and error monad: [?] is [bind]. *)
Definition M (A : Type) := Fs -> Result A * Fs.
Definition ret {A} (a : A) : M A := fun s => (Ok a, s).
Definition bind {A B} (c : M A) (k : A -> M B) : M B :=
  fun s => match c s with
           | (Ok a, s') => k a s'
           | (Err e, s') => (Err e, s')
           end.
Notation "x <- c ;; k" := (bind c (fun x => k)) (at level 61, c at next level, right associativity).
Notation "c ;; k" := (bind c (fun _ => k)) (at level 61, right associativity).

Definition fail {A} (e : Error) : M A := fun s => (Err e, s).
Definition modify (f : Fs -> Fs) : M unit := fun s => (Ok tt, f s).
Definition get_fs : M Fs := fun s => (Ok s, s).

(** A system call: [?] on its [io::Result], wrapped by [From<io::Error>]. *)
Definition syscall (env : IoEnv) (op : IoOp) : M unit :=
  match env op with
  | Some e => fail (Io e)
  | None => ret tt
  end.

Definition update_file (f : DataFile -> DataFile) (s : Fs) : Fs :=
  mkFs (option_map f (fs_file s)) (fs_locked s).

Record Settings := mkSettings {
  auto_create : bool;
  read_only : bool;
  initial_mmap_size : Z
}.

Definition Settings_default : Settings := mkSettings true false 0.

(** [OpenOptions::open] with [create(c)]: a missing file is created empty
    when [c] holds, and is an I/O [NotFound] error otherwise. *)
Definition open_file (env : IoEnv) (create : bool) : M unit :=
  syscall env OpOpen ;;
  s <- get_fs ;;
  match fs_file s with
  | Some _ => ret tt
  | None =>
      if create then modify (fun s => mkFs (Some empty_file) (fs_locked s))
      else fail (Io IoNotFound)
  end.

(** [Mmap::open(&data_file, _)]: it reads the file's length and maps that
    many bytes; [mmap] refuses a length of 0 with [EINVAL] (os error 22). *)
Definition mmap_open (env : IoEnv) : M unit :=
  syscall env OpMmap ;;
  s <- get_fs ;;
  match fs_file s with
  | Some f => if file_len f =? 0 then fail (Io (IoOther 22)) else ret tt
  | None => ret tt
  end.

(** The end of the scope of [data_file] and [data_mmap]: on every return,
    by [Ok] or by [?], the file is closed, which releases a lock taken
    through it; the lock state is again the one on entry. *)
Definition on_return {A} (c : M A) : M A :=
  fun s => let '(r, s') := c s in (r, mkFs (fs_file s') (fs_locked s)).

(** [Db::create]: the two Meta copies are written through the map. *)
Definition create (env : IoEnv) (settings : Settings) : M unit :=
  on_return (
    open_file env true ;;
    syscall env OpSetLen ;;
    modify (update_file (set_len (OS_PAGE_SIZE * 4))) ;;
    mmap_open env ;;
    modify (update_file (fun f => mkDataFile (file_len f) (Some Meta_default) (file_meta1 f))) ;;
    modify (update_file (fun f => mkDataFile (file_len f) (file_meta0 f) (Some Meta_default))) ;;
    ret tt).

(** [Db::init]: the lock [lock_exclusive] takes lasts until [data_file] is
    dropped on return; [metadata(path)] is read, but its [if] has an empty
    body, and the Meta copies are never read. *)
Definition init (env : IoEnv) (settings : Settings) : M unit :=
  on_return (
    open_file env (negb (read_only settings)) ;;
    mmap_open env ;;
    (if negb (read_only settings)
     then syscall env OpLock ;; modify (fun s => mkFs (fs_file s) true)
     else ret tt) ;;
    syscall env OpMetadata ;;
    ret tt).

Definition unwrap_settings (settings : option Settings) : Settings :=
  match settings with
  | Some s => s
  | None => Settings_default
  end.

(** [Db::open]; [path.exists()] is whether the file system holds the file. *)
Definition open (env : IoEnv) (settings : option Settings) : M unit :=
  let settings := unwrap_settings settings in
  s <- get_fs ;;
  match fs_file s, auto_create settings with
  | None, false => fail DatabaseNotFound
  | None, true => create env settings
  | Some _, _ => init env settings
  end.

(** ** enc.rs: LEB128 *)
Module Leb.

(** [encode_with_offset::<T>(p, off, x)] for an [n]-byte integer type [T]:
    the little-endian bytes of [x] at [off], [off + 1], ... *)
Fixpoint put_bytes (off : Z) (bs : list Z) : list Write :=
  match bs with
  | [] => []
  | b :: bs => (off, b) :: put_bytes (off + 1) bs
  end.

Definition put (n : nat) (off x : Z) : list Write := put_bytes off (le_bytes n x).

(** The [while value > 127] loop of [encode_leb_u64] from [offset]: the
    returned offset and the writes.  A [u64] leaves the loop after at most
    ten rounds, so 64 rounds of fuel never run out. *)
Fixpoint enc_loop (fuel : nat) (offset value : Z) : Z * list Write :=
  match fuel with
  | O => (offset, [(offset, Z.land value 255)])
  | S f =>
      if 127 <? value then
        let '(r, ws) := enc_loop f (offset + 1) (Z.shiftr value 7) in
        (r, (offset, Z.lor (Z.land value 255) 128) :: ws)
      else (offset, [(offset, Z.land value 255)])
  end.

(** [encode_leb_u64(p, v)] *)
Definition encode_leb_u64 (v : Z) : Z * list Write := enc_loop 64 0 v.

Definition shl_overflow : string := "attempt to shift left with overflow".

(** The [loop] of [decode_leb_u64]: [val |= ((b0 & 0x7f) as u64) << shift]
    panics once [shift >= 64] (debug build, as the crate's tests run).  The
    shift grows by 7 per round from 7, so the tenth round always panics and
    the fuel never runs out. *)
Fixpoint dec_loop (fuel : nat) (m : Mem) (offset shift val : Z) : Outcome Z :=
  match fuel with
  | O => Panicked shl_overflow
  | S f =>
      let b0 := load m offset in
      if 64 <=? shift then Panicked shl_overflow
      else
        let val := Z.lor val (Z.land (Z.shiftl (Z.land b0 127) shift) u64_max) in
        if b0 <? 128 then Done val
        else dec_loop f m (offset + 1) (shift + 7) val
  end.

(** [decode_leb_u64(p)] *)
Definition decode_leb_u64 (m : Mem) : Outcome Z :=
  let b0 := load m 0 in
  if b0 <? 128 then Done b0
  else dec_loop 10 m 1 7 (Z.land b0 127).

(** [encode_leb_u32(p, value)]: apart from the first branch every
    [encode_with_offset] stores a whole [u32], four bytes. *)
Definition encode_leb_u32 (value : Z) : Z * list Write :=
  if value <? 2 ^ 7 then (1, put 1 0 value)
  else if value <? 2 ^ 14 then
    (2, put 4 0 (Z.lor value 128) ++ put 4 1 (Z.shiftr value 7))
  else if value <? 2 ^ 21 then
    (3, put 4 0 (Z.lor value 128) ++ put 4 1 (Z.lor (Z.shiftr value 7) 128) ++
        put 4 2 (Z.shiftr value 14))
  else if value <? 2 ^ 28 then
    (4, put 4 0 (Z.lor value 128) ++ put 4 1 (Z.lor (Z.shiftr value 7) 128) ++
        put 4 2 (Z.lor (Z.shiftr value 14) 128) ++ put 4 3 (Z.shiftr value 21))
  else
    (5, put 4 0 (Z.lor value 128) ++ put 4 1 (Z.lor (Z.shiftr value 7) 128) ++
        put 4 2 (Z.lor (Z.shiftr value 14) 128) ++
        put 4 3 (Z.lor (Z.shiftr value 21) 128) ++ put 4 4 (Z.shiftr value 28)).

(** [decode_leb_u32(p)]: [decode_leb_u64(p) as u32]. *)
Definition decode_leb_u32 (m : Mem) : Outcome Z :=
  match decode_leb_u64 m with
  | Done v => Done (v mod 2 ^ 32)
  | Panicked msg => Panicked msg
  end.

(** Memory [m] holds, from [off], the bytes the encoder's loop writes for
    [w] with [fuel] rounds left. *)
Fixpoint leb_at (m : Mem) (off : Z) (fuel : nat) (w : Z) : Prop :=
  match fuel with
  | O => load m off = Z.land w 255
  | S f =>
      if 127 <? w then load m off = Z.lor (Z.land w 255) 128 /\ leb_at m (off + 1) f (Z.shiftr w 7)
      else load m off = Z.land w 255
  end.

End Leb.

(** ** mmap_array.rs: JumpTable::create_mmap and JumpTable::new *)

Definition capacity_too_low : string :=
  "Capacity is lower than the current file size which will result in file truncation.".

(** [JumpTable::create_mmap]: [existing] is the length of the file at the
    path, if there is one; the result is the length of the new map. *)
Definition create_mmap (env : IoEnv) (existing : option Z) (capacity : Z) : Outcome (Result Z) :=
  match env OpOpen with
  | Some e => Done (Err (Io e))
  | None =>
      let length := calculate_length capacity in
      match env OpMetadata with
      | Some e => Done (Err (Io e))
      | None =>
          let cur := match existing with Some n => n | None => 0 end in
          if length <? cur then Panicked capacity_too_low
          else match env OpSetLen with
               | Some e => Done (Err (Io e))
               | None => match env OpMmap with
                         | Some e => Done (Err (Io e))
                         | None => Done (Ok length)
                         end
               end
      end
  end.

(** [JumpTable::new]: the table and the writes of the header ([MAGIC_KEY]
    as a [u32] at offset 0, [VERSION] as a [u32] at offset [MAGIC_KEY_SIZE]). *)
Definition JumpTable_new_io (env : IoEnv) (existing : option Z) (capacity : Z)
  : Outcome (Result (JumpTable * list Write)) :=
  match create_mmap env existing capacity with
  | Panicked msg => Panicked msg
  | Done (Err e) => Done (Err e)
  | Done (Ok len) =>
      Done (Ok (mkJumpTable len VERSION MAGIC_KEY capacity,
                Leb.put 4 0 MAGIC_KEY ++ Leb.put 4 MAGIC_KEY_SIZE VERSION))
  end.

(** [from_ptr_with_offset::<u32>(p, off)] *)
Definition read_u32 (m : Mem) (off : Z) : Z :=
  Sip.le_word (map (fun k => load m (off + Z.of_nat k)) (seq 0 4)).

(** ** db.rs: PageInfo and PageIndex *)

Record PageInfo := mkPageInfo { pi_ptr : Z; pi_id : Z }.

Definition PI_OFFSET_OVERFLOW : Z := 32.
Definition PI_OFFSET_LENGTH : Z := 64.
Definition PI_KEYS_PER_PAGE : Z := 124.

(** [PageArray::get_page_info]; [m] is the content of the map. *)
Definition get_page_info (pa : PageArray) (id : Z) : Outcome PageInfo :=
  match page_ptr pa id with
  | PagePtr off => Done (mkPageInfo off id)
  | AssertFailed => Panicked "assertion failed: self.data.len() >= OS_PAGE_SIZE * id as usize"
  end.

(** [PageInfo::overflow_page] *)
Definition overflow_page (m : Mem) (p : PageInfo) : option Z :=
  let x := read_u32 m (pi_ptr p + PI_OFFSET_OVERFLOW) in
  if 0 <? x then Some x else None.

(** [PageIndex::length] *)
Definition PageIndex_length (m : Mem) (p : PageInfo) : Z :=
  read_u32 m (pi_ptr p + PI_OFFSET_LENGTH).

Record PageIndex := mkPageIndex {
  page_ptrs : list PageInfo;
  pix_capacity : Z;
  pix_length : Z
}.

Definition add_overflow : string := "attempt to add with overflow".

(** The [loop] of [PageIndex::new], with [fuel] rounds: [None] when the
    rounds run out.  [length += ...] adds [u32]s (debug build: an overflow
    panics). *)
Fixpoint index_loop (fuel : nat) (pa : PageArray) (m : Mem) (p1 : PageInfo)
    (pages : list PageInfo) (length : Z) : option (Outcome (list PageInfo * Z)) :=
  match fuel with
  | O => None
  | S f =>
      let pages := pages ++ [p1] in
      let length := length + PageIndex_length m p1 in
      if 2 ^ 32 <=? length then Some (Panicked add_overflow)
      else match overflow_page m p1 with
           | Some next =>
               match get_page_info pa next with
               | Done p => index_loop f pa m p pages length
               | Panicked msg => Some (Panicked msg)
               end
           | None => Some (Done (pages, length))
           end
  end.

(** [PageIndex::new], run for at most [fuel] rounds. *)
Definition PageIndex_new (fuel : nat) (pa : PageArray) (m : Mem) (page : PageInfo)
  : option (Outcome PageIndex) :=
  match index_loop fuel pa m page [] 0 with
  | None => None
  | Some (Panicked msg) => Some (Panicked msg)
  | Some (Done (pages, length)) =>
      Some (Done (mkPageIndex pages (Z.of_nat (List.length pages) * PI_KEYS_PER_PAGE) length))
  end.

(** ** Helpers for stating properties *)

(** The length of a varint whose first byte is [b0], as the format's doc
    table gives it: one byte below [VARINT_CUT1], two below [VARINT_CUT2],
    otherwise the selector and [b0 - VARINT_CUT2 + 2] payload bytes. *)
Definition varint_len (b0 : Z) : Z :=
  if b0 <? Varint.VARINT_CUT1 then 1
  else if b0 <? Varint.VARINT_CUT2 then 2
  else b0 - Varint.VARINT_CUT2 + 3.

(** [ps] is a chain of pages, each one's overflow field naming the next
    and the last one's overflow field being 0. *)
Fixpoint linked (pa : PageArray) (m : Mem) (ps : list PageInfo) : Prop :=
  match ps with
  | [] => False
  | [p] => overflow_page m p = None
  | p :: ((q :: _) as rest) =>
      (exists n, overflow_page m p = Some n /\ get_page_info pa n = Done q) /\
      linked pa m rest
  end.

Definition sum_lengths (m : Mem) (ps : list PageInfo) : Z :=
  fold_right Z.add 0 (map (PageIndex_length m) ps).

(** ** Concrete inputs *)

(** A Meta record whose checksum is computed the way the spec describes:
    the hash of every other field. *)
Definition spec_checksummed_meta : Meta :=
  mkMeta MAGIC_KEY VERSION 0 OS_PAGE_SIZE 3635332013156807856 0 true 0 0 0.

(** A database file of four pages whose two Meta copies are both zeroed,
    so that neither validates. *)
Definition corrupt_fs : Fs :=
  mkFs (Some (mkDataFile (OS_PAGE_SIZE * 4) (Some zero_meta) (Some zero_meta))) false.

(** A file system on which [set_len] fails with [ENOSPC] (os error 28)
    and every other call succeeds. *)
Definition set_len_fails : IoEnv :=
  fun op => match op with OpSetLen => Some (IoOther 28) | _ => None end.

(** Two pages of a map: page 1's overflow field names page 2, whose
    overflow field is 0; their stored lengths are 5 and 7. *)
Definition two_pages : Mem :=
  fun x => if x =? OS_PAGE_SIZE + 32 then 2
           else if x =? OS_PAGE_SIZE + 64 then 5
           else if x =? 2 * OS_PAGE_SIZE + 64 then 7
           else 0.

(** Two pages whose overflow fields name each other, both of length 0. *)
Definition page_cycle : Mem :=
  fun x => if x =? OS_PAGE_SIZE + 32 then 2
           else if x =? 2 * OS_PAGE_SIZE + 32 then 1
           else 0.

(** * Lemmas *)

Lemma store_cons (m : Mem) (o b : Z) (ws : list Write) :
  store m ((o, b) :: ws) = store (fun x => if x =? o then b else m x) ws.
Proof. reflexivity. Qed.

Lemma store_notin (ws : list Write) : forall (m : Mem) (j : Z),
  ~ In j (offsets ws) -> store m ws j = m j.
Proof.
  induction ws as [|[o b] ws IH]; intros m j Hj; [reflexivity|].
  simpl in Hj. rewrite store_cons, IH by tauto.
  destruct (Z.eqb_spec j o); [subst; tauto | reflexivity].
Qed.

Module VarintFacts.
Import Varint.

Lemma enc_loop_offsets (n : nat) : forall (i v j : Z),
  In j (offsets (enc_loop i n v)) -> i <= j < i + Z.of_nat n.
Proof.
  induction n as [|n IH]; intros i v j H; simpl in H; [contradiction|].
  destruct H as [H|H]; [subst; lia|]. apply IH in H. lia.
Qed.

Lemma enc_loop_length (n : nat) : forall (i v : Z),
  length (enc_loop i n v) = n.
Proof. induction n; intros; simpl; auto. Qed.

(** The byte found at offset [j] after the loop of [encode_varint_u64]. *)
Lemma enc_loop_load (n : nat) : forall (m : Mem) (i v j : Z), 0 <= v ->
  i <= j < i + Z.of_nat n ->
  load (store m (enc_loop i n v)) j = Z.land (Z.shiftr v (8 * (j - i))) 255.
Proof.
  induction n as [|n IH]; intros m i v j Hv Hj; [lia|].
  unfold load. simpl enc_loop. rewrite store_cons.
  destruct (Z.eq_dec j i) as [->|Hne].
  - rewrite store_notin.
    + rewrite Z.eqb_refl, Z.sub_diag, Z.mul_0_r, Z.shiftr_0_r. reflexivity.
    + intros Hin. apply enc_loop_offsets in Hin. lia.
  - unfold load in IH.
    rewrite IH by (try apply Z.shiftr_nonneg; lia).
    rewrite Z.shiftr_shiftr by lia. f_equal. f_equal. lia.
Qed.

Lemma mod_pow2_step (V k : Z) : 0 <= k ->
  V mod 2 ^ (k + 8) = Z.lor (V mod 2 ^ k) (Z.shiftl (Z.land (Z.shiftr V k) 255) k).
Proof.
  intros Hk. change 255 with (Z.ones 8).
  rewrite <- !Z.land_ones by lia. Z.bitblast.
Qed.

(** The loop of [decode_varint_u64] reassembles little-endian bytes. *)
Lemma dec_loop_spec (m : Mem) (V : Z) (n : nat) : forall (i acc : Z), 1 <= i ->
  (forall j, i <= j < i + Z.of_nat n ->
     load m j = Z.land (Z.shiftr V (8 * (j - 1))) 255) ->
  acc = V mod 2 ^ (8 * (i - 1)) ->
  dec_loop m i n acc = V mod 2 ^ (8 * (i - 1 + Z.of_nat n)).
Proof.
  induction n as [|n IH]; intros i acc Hi Hm Hacc; simpl dec_loop.
  - rewrite Z.add_0_r. exact Hacc.
  - rewrite (IH (i + 1)); [ | lia | intros j Hj; apply Hm; lia | ].
    + f_equal. f_equal. lia.
    + rewrite Hm by lia. subst acc.
      replace (8 * (i + 1 - 1)) with (8 * (i - 1) + 8) by lia.
      rewrite mod_pow2_step by lia. reflexivity.
Qed.

(** Number of payload bytes of the multi-byte branch. *)
Lemma multi_bytes_bounds (v : Z) : 12488 <= v <= u64_max ->
  let bytes := (64 - leading_zeros v + 7) / 8 in
  2 <= bytes <= 8 /\ v < 2 ^ (8 * bytes) /\ bytes = (Z.log2 v + 8) / 8.
Proof.
  intros Hv bytes. unfold u64_max in Hv.
  assert (Hl : leading_zeros v = 63 - Z.log2 v)
    by (unfold leading_zeros; destruct (Z.eqb_spec v 0); lia).
  assert (H13 : 13 <= Z.log2 v)
    by (apply Z.log2_le_pow2; lia).
  assert (H63 : Z.log2 v < 64) by (apply Z.log2_lt_pow2; lia).
  assert (Hs := Z.log2_spec v ltac:(lia)).
  assert (Hb : bytes = (Z.log2 v + 8) / 8) by (unfold bytes; rewrite Hl; f_equal; lia).
  pose proof (Z.mod_pos_bound (Z.log2 v + 8) 8 ltac:(lia)).
  pose proof (Z.div_mod (Z.log2 v + 8) 8 ltac:(lia)).
  split; [|split]; [lia | | exact Hb].
  destruct Hs as [_ Hs]. eapply Z.lt_le_trans; [exact Hs|].
  apply Z.pow_le_mono_r; lia.
Qed.

Lemma land_255_small (x : Z) : 0 <= x < 256 -> Z.land x 255 = x.
Proof.
  intros Hx. change 255 with (Z.ones 8). rewrite Z.land_ones by lia.
  apply Z.mod_small. exact Hx.
Qed.

Lemma land_255_mod (x : Z) : Z.land x 255 = x mod 256.
Proof. change 255 with (Z.ones 8). apply Z.land_ones. lia. Qed.

(** The writes of the multi-byte branch, read back at offset [j]. *)
Lemma multi_load (m : Mem) (v b0 bytes j : Z) : 0 <= v -> 1 <= j <= bytes ->
  load (store m ((0, b0) :: enc_loop 1 (Z.to_nat bytes) v)) j
  = Z.land (Z.shiftr v (8 * (j - 1))) 255.
Proof.
  intros Hv Hj. rewrite store_cons. apply enc_loop_load; lia.
Qed.

Lemma multi_load0 (m : Mem) (v b0 bytes : Z) :
  load (store m ((0, b0) :: enc_loop 1 (Z.to_nat bytes) v)) 0 = b0.
Proof.
  unfold load. rewrite store_cons, store_notin.
  - reflexivity.
  - intros Hin. apply enc_loop_offsets in Hin. lia.
Qed.

(** Decoding what [encode_varint_u64] wrote gives back the value, for
    every [u64]. *)
Lemma roundtrip_u64 (m : Mem) (v : Z) : is_u64 v -> roundtrip m v = v.
Proof.
  intros Hv. unfold is_u64, u64_max in Hv.
  unfold roundtrip, encode_varint_u64, VARINT_CUT1, VARINT_CUT2.
  destruct (Z.ltb_spec v 201) as [H1|H1]; [|destruct (Z.ltb_spec v (201 + 255 + 256 * (249 - 201 - 1))) as [H2|H2]].
  - unfold decode_varint_u64, load, store; cbn [snd fold_left Z.eqb Pos.eqb]; unfold VARINT_CUT1, VARINT_CUT2.
    rewrite land_255_small by lia.
    destruct (Z.ltb_spec v 201); [reflexivity | lia].
  - unfold decode_varint_u64, load, store; cbn [snd fold_left Z.eqb Pos.eqb]; unfold VARINT_CUT1, VARINT_CUT2.
    rewrite Z.shiftr_div_pow2 by lia. rewrite !land_255_mod.
    change (2 ^ 8) with 256.
    assert (Hq : 0 <= (v - 200) / 256 < 48)
      by (split; [apply Z.div_pos | apply Z.div_lt_upper_bound]; lia).
    rewrite (Z.mod_small ((v - 200) / 256 + 201)) by lia.
    destruct (Z.ltb_spec ((v - 200) / 256 + 201) 201); [lia|].
    destruct (Z.ltb_spec ((v - 200) / 256 + 201) 249); [|lia].
    rewrite Z.shiftl_mul_pow2 by lia. change (2 ^ 8) with 256.
    pose proof (Z.div_mod (v - 200) 256 ltac:(lia)). lia.
  - destruct (multi_bytes_bounds v ltac:(unfold u64_max; lia)) as [Hb [Hlt _]].
    set (bytes := (64 - leading_zeros v + 7) / 8) in *.
    cbn [snd]. unfold decode_varint_u64.
    rewrite multi_load0.
    rewrite land_255_small by lia.
    unfold VARINT_CUT1, VARINT_CUT2.
    destruct (Z.ltb_spec (249 + (bytes - 2)) 201); [lia|].
    destruct (Z.ltb_spec (249 + (bytes - 2)) 249); [lia|].
    rewrite (dec_loop_spec _ v).
    + replace (8 * (2 - 1 + Z.of_nat (Z.to_nat (249 + (bytes - 2) - 249 + 2 + 1 - 2))))
        with (8 * bytes) by lia.
      apply Z.mod_small. lia.
    + lia.
    + intros j Hj. apply multi_load; lia.
    + rewrite multi_load by lia.
      rewrite Z.sub_diag, Z.mul_0_r, Z.shiftr_0_r, land_255_mod. reflexivity.
Qed.

(** The multi-byte branch, with the payload length written via [Z.log2]. *)
Lemma encode_multi (v : Z) : 12488 <= v <= u64_max ->
  let bytes := (Z.log2 v + 8) / 8 in
  encode_varint_u64 v = (bytes, (0, 249 + (bytes - 2)) :: enc_loop 1 (Z.to_nat bytes) v).
Proof.
  intros Hv bytes.
  destruct (multi_bytes_bounds v Hv) as [Hb [_ He]].
  unfold encode_varint_u64, VARINT_CUT1, VARINT_CUT2.
  destruct (Z.ltb_spec v 201); [lia|].
  destruct (Z.ltb_spec v (201 + 255 + 256 * (249 - 201 - 1))); [lia|].
  cbv zeta. rewrite He. fold bytes. rewrite He in Hb. fold bytes in Hb.
  rewrite land_255_small by lia. reflexivity.
Qed.

Lemma log2_range (v lo hi : Z) : 2 ^ lo <= v < 2 ^ hi -> 0 <= lo ->
  lo <= Z.log2 v < hi.
Proof.
  intros Hv Hlo. split.
  - apply Z.log2_le_pow2; lia.
  - apply Z.log2_lt_pow2; lia.
Qed.

Lemma enc_loop_offsets_seq (n : nat) : forall (i : nat) (v : Z),
  offsets (enc_loop (Z.of_nat i) n v) = map Z.of_nat (seq i n).
Proof.
  induction n as [|n IH]; intros i v; [reflexivity|].
  cbn [enc_loop offsets map seq fst]. unfold offsets in IH.
  replace (Z.of_nat i + 1) with (Z.of_nat (S i)) by lia.
  rewrite IH. reflexivity.
Qed.

End VarintFacts.

(** * The codec claims *)
Module VarintClaims.
Import Varint VarintFacts.

(** C5: for every u64 [v <= 2^56 - 1], decoding the bytes written by
    [encode_varint_u64 v] gives back [v], whatever the memory held before. *)
Theorem varint_roundtrip (m : Mem) (v : Z) :
  0 <= v <= 2 ^ 56 - 1 ->
  decode_varint_u64 (store m (snd (encode_varint_u64 v))) = v.
Proof.
  intros Hv. apply (roundtrip_u64 m v). unfold is_u64, u64_max. lia.
Qed.

Lemma varint_roundtrip_witness :
  0 <= 78278 <= 2 ^ 56 - 1 /\
  decode_varint_u64 (store (fun _ => 0) (snd (encode_varint_u64 78278))) = 78278.
Proof. split; [lia | apply varint_roundtrip; lia]. Defined.

(** C6 (as stated, refuted): the spec's range table puts 12488 in the
    two-byte range with byte0 = 248; the encoder writes three bytes there,
    starting with selector 249. *)
Lemma spec_range_table_fails :
  ~ (forall v, 201 <= v <= 12743 ->
       snd (encode_varint_u64 v) = [(0, (v - 200) / 256 + 201); (1, (v - 200) mod 256)]).
Proof.
  intros H. specialize (H 12488 ltac:(lia)). vm_compute in H. discriminate H.
Qed.

(** C6 (amended): the encoder follows the table of its own doc comment:
    201..12487 take two bytes [(v-200)/256 + 201, (v-200) mod 256];
    12488..65535 take selector 249 and [v] as a little-endian u16;
    65536..2^24-1 take selector 250 and [v] as a little-endian u24. *)
Theorem encode_range_table (v : Z) :
  201 <= v <= 2 ^ 24 - 1 ->
  snd (encode_varint_u64 v) =
    if v <=? 12487 then [(0, (v - 200) / 256 + 201); (1, (v - 200) mod 256)]
    else if v <=? 65535 then [(0, 249); (1, v mod 256); (2, v / 256)]
    else [(0, 250); (1, v mod 256); (2, (v / 256) mod 256); (3, v / 65536)].
Proof.
  intros Hv.
  destruct (Z.leb_spec v 12487) as [H1|H1].
  - unfold encode_varint_u64, VARINT_CUT1, VARINT_CUT2.
    destruct (Z.ltb_spec v 201); [lia|].
    destruct (Z.ltb_spec v (201 + 255 + 256 * (249 - 201 - 1))); [|lia].
    cbn [snd]. rewrite Z.shiftr_div_pow2 by lia. change (2 ^ 8) with 256.
    assert (Hq : 0 <= (v - 200) / 256 < 48)
      by (split; [apply Z.div_pos | apply Z.div_lt_upper_bound]; lia).
    rewrite land_255_small by lia. rewrite land_255_mod. reflexivity.
  - rewrite encode_multi by (unfold u64_max; lia). cbn [snd].
    destruct (Z.leb_spec v 65535) as [H2|H2].
    + assert (Hl : 13 <= Z.log2 v < 16) by (apply log2_range; lia).
      replace ((Z.log2 v + 8) / 8) with 2
        by (apply Z.div_unique with (r := Z.log2 v + 8 - 16); lia).
      change (Z.to_nat 2) with 2%nat. change (249 + (2 - 2)) with 249.
      cbn [enc_loop]. change (1 + 1) with 2.
      rewrite !land_255_mod, Z.shiftr_div_pow2 by lia.
      change (2 ^ 8) with 256. rewrite (Z.mod_small (v / 256))
        by (split; [apply Z.div_pos | apply Z.div_lt_upper_bound]; lia).
      reflexivity.
    + assert (Hl : 16 <= Z.log2 v < 24) by (apply log2_range; lia).
      replace ((Z.log2 v + 8) / 8) with 3
        by (apply Z.div_unique with (r := Z.log2 v + 8 - 24); lia).
      change (Z.to_nat 3) with 3%nat. change (249 + (3 - 2)) with 250.
      cbn [enc_loop]. change (1 + 1) with 2. change (2 + 1) with 3.
      rewrite !land_255_mod, Z.shiftr_shiftr by lia.
      rewrite !Z.shiftr_div_pow2 by lia. change (2 ^ 8) with 256.
      change (2 ^ (8 + 8)) with 65536.
      rewrite (Z.mod_small (v / 65536))
        by (split; [apply Z.div_pos | apply Z.div_lt_upper_bound]; lia).
      reflexivity.
Qed.

Lemma encode_range_table_witness :
  201 <= 12488 <= 2 ^ 24 - 1 /\
  snd (encode_varint_u64 12488) = [(0, 249); (1, 200); (2, 48)].
Proof. split; [lia | rewrite encode_range_table by lia; reflexivity]. Defined.

(** C7 (as stated, refuted): [encode_varint_u64 (2^56)] does not fail; it
    writes selector 255 and eight payload bytes and returns 8. *)
Lemma encode_2pow56_succeeds :
  encode_varint_u64 (2 ^ 56) =
    (8, [(0, 255); (1, 0); (2, 0); (3, 0); (4, 0); (5, 0); (6, 0); (7, 0); (8, 1)]).
Proof. vm_compute. reflexivity. Qed.

(** C7 (amended): every u64 [v >= 2^56] is encoded without error as
    selector 255 followed by the eight little-endian bytes of [v] (the
    function returns 8), and [decode_varint_u64] gives [v] back. *)
Theorem encode_above_2pow56 (v : Z) :
  2 ^ 56 <= v <= u64_max ->
  encode_varint_u64 v = (8, (0, 255) :: enc_loop 1 8%nat v) /\
  forall m, decode_varint_u64 (store m (snd (encode_varint_u64 v))) = v.
Proof.
  intros Hv. split.
  - rewrite encode_multi by (unfold u64_max in *; lia).
    assert (Hl : 56 <= Z.log2 v < 64) by (apply log2_range; unfold u64_max in Hv; lia).
    replace ((Z.log2 v + 8) / 8) with 8
      by (apply Z.div_unique with (r := Z.log2 v + 8 - 64); lia).
    reflexivity.
  - intros m. apply (roundtrip_u64 m v). unfold is_u64. lia.
Qed.

Lemma encode_above_2pow56_witness :
  2 ^ 56 <= 2 ^ 56 <= u64_max /\
  encode_varint_u64 (2 ^ 56) = (8, (0, 255) :: enc_loop 1 8%nat (2 ^ 56)).
Proof.
  split; [unfold u64_max; lia|].
  apply (proj1 (encode_above_2pow56 (2 ^ 56) ltac:(unfold u64_max; lia))).
Defined.

(** C10: in the multi-byte branch ([v >= 12488]) the encoder writes one
    selector byte at offset 0 and [n = ceil(bits(v)/8)] payload bytes at
    offsets 1..n, but returns [n], one less than the number of bytes
    written; for [v <= 12487] the returned width is the number of bytes
    written. *)
Theorem encode_width_vs_written (v : Z) :
  is_u64 v ->
  (12488 <= v ->
     let bits := Z.log2 v + 1 in
     fst (encode_varint_u64 v) = (bits + 7) / 8 /\
     offsets (snd (encode_varint_u64 v))
       = map Z.of_nat (seq 0 (S (Z.to_nat (fst (encode_varint_u64 v))))) /\
     Z.of_nat (length (snd (encode_varint_u64 v))) = fst (encode_varint_u64 v) + 1) /\
  (v <= 12487 ->
     Z.of_nat (length (snd (encode_varint_u64 v))) = fst (encode_varint_u64 v)).
Proof.
  intros Hv. unfold is_u64 in Hv. split.
  - intros Hge bits. rewrite encode_multi by lia. cbn [fst snd].
    assert (Hb := multi_bytes_bounds v ltac:(lia)).
    destruct Hb as [Hb [_ He]]. rewrite He in Hb.
    split; [unfold bits; f_equal; lia|]. split.
    + cbn [offsets map fst]. change 1 with (Z.of_nat 1).
      rewrite enc_loop_offsets_seq. reflexivity.
    + cbn [length]. rewrite enc_loop_length. lia.
  - intros Hle. unfold encode_varint_u64, VARINT_CUT1, VARINT_CUT2.
    destruct (Z.ltb_spec v 201); [reflexivity|].
    destruct (Z.ltb_spec v (201 + 255 + 256 * (249 - 201 - 1))); [reflexivity|lia].
Qed.

Lemma encode_width_vs_written_witness :
  is_u64 12488 /\ 12488 <= 12488 /\
  fst (encode_varint_u64 12488) = 2 /\
  Z.of_nat (length (snd (encode_varint_u64 12488))) = 3.
Proof.
  assert (H : is_u64 12488) by (unfold is_u64, u64_max; lia).
  destruct (encode_width_vs_written 12488 H) as [Hm _].
  destruct (Hm ltac:(lia)) as [Hw [_ Hl]].
  rewrite Hl, Hw. vm_compute. repeat split; discriminate.
Defined.

End VarintClaims.

(** * Meta records *)
Module MetaClaims.

(** What [validate] checks once magic and version match: a non-zero
    checksum must equal the hash of the whole record, the checksum field
    included. *)
Lemma validate_nonzero_checksum (m : Meta) :
  magic m = MAGIC_KEY -> version m = VERSION -> checksum m <> 0 ->
  validate m = Ok tt <-> checksum m = hash m.
Proof.
  intros Hm Hv Hc. unfold validate.
  rewrite Hm, Hv, !Z.eqb_refl. cbn [negb].
  destruct (Z.eqb_spec (checksum m) 0) as [|_]; [contradiction|].
  destruct (Z.eqb_spec (checksum m) (hash m)); cbn [negb andb]; split; congruence.
Qed.

(** C2: [validate] rejects a record whose non-zero checksum is the hash of
    the other fields, because it compares against the hash of the record
    with its checksum field included. *)
Theorem validate_rejects_spec_checksum :
  checksum spec_checksummed_meta = spec_checksum spec_checksummed_meta /\
  checksum spec_checksummed_meta <> 0 /\
  validate spec_checksummed_meta = Err ChecksumError /\
  hash spec_checksummed_meta = 9019206469809117772.
Proof. vm_compute. repeat split; discriminate. Qed.

(** C3: a wrong magic gives [DatabaseInvalid]; a right magic with a wrong
    version gives [DatabaseVersionMismatch]; right magic and version with a
    zero checksum give [Ok]. *)
Theorem validate_contract (m : Meta) :
  (magic m <> MAGIC_KEY -> validate m = Err DatabaseInvalid) /\
  (magic m = MAGIC_KEY -> version m <> VERSION -> validate m = Err DatabaseVersionMismatch) /\
  (magic m = MAGIC_KEY -> version m = VERSION -> checksum m = 0 -> validate m = Ok tt).
Proof.
  unfold validate.
  destruct (Z.eqb_spec (magic m) MAGIC_KEY) as [Hm|Hm];
  destruct (Z.eqb_spec (version m) VERSION) as [Hv|Hv];
  destruct (Z.eqb_spec (checksum m) 0) as [Hc|Hc]; cbn [negb andb];
  repeat split; intros; try congruence.
Qed.

Lemma validate_contract_witness :
  magic Meta_default = MAGIC_KEY /\ version Meta_default = VERSION /\
  checksum Meta_default = 0 /\ validate Meta_default = Ok tt.
Proof.
  split; [reflexivity|]. split; [reflexivity|]. split; [reflexivity|].
  apply (proj2 (proj2 (validate_contract Meta_default))); reflexivity.
Defined.

End MetaClaims.

(** * Page addressing *)
Module PageClaims.

(** C4 (code bug): [check_bounds], documented as checking that a page is
    within the bounds of the map, asserts [len >= 4096 * id], one page too
    far.  With a map of one page, page 1 starts exactly at the end of the
    map ([1 * 4096 >= 4096]) yet [page_ptr] passes the assertion and returns
    the out-of-range offset 4096.  A page the assertion does catch is
    refused by a panic ([AssertFailed]), not by an [Error] value. *)
Lemma page_ptr_accepts_page_at_end :
  page_ptr (mkPageArray 4096) 1 = PagePtr 4096 /\
  ~ (forall pa id, is_u32 id -> data_len pa <= id * OS_PAGE_SIZE ->
       page_ptr pa id = AssertFailed) /\
  page_ptr (mkPageArray 4096) 2 = AssertFailed.
Proof.
  split; [reflexivity|]. split; [|reflexivity].
  intros H. specialize (H (mkPageArray 4096) 1 ltac:(unfold is_u32; lia) ltac:(cbn; lia)).
  discriminate H.
Qed.

End PageClaims.

(** * JumpTable *)
Module JumpTableClaims.

Lemma jt_set_offsets (jt : JumpTable) (index value : Z) (ws : list Write) (o : Z) :
  jt_set jt index value = Done ws -> In o (offsets ws) ->
  64 * index + HEADER_SIZE <= o.
Proof.
  unfold jt_set. destruct (Z.ltb_spec (jt_length jt) index); [|discriminate].
  intros Hws Ho.
  apply (f_equal (fun r => match r with Done a => a | Panicked _ => [] end)) in Hws.
  cbv beta iota in Hws. subst ws. unfold offsets in Ho.
  apply in_map_iff in Ho. destruct Ho as [[o' b] [Ho Hin]]. cbn in Ho. subst o'.
  apply in_combine_l, in_map_iff in Hin. destruct Hin as [k [Hk _]]. lia.
Qed.

(** C9: the bounds test of [JumpTable::get] and [JumpTable::set] is
    inverted.  Every index below the length panics with "Index out of
    bound"; an access happens only for an index above the length; and for a
    table built by [JumpTable::new] such an access writes past the end of
    the mapped file. *)
Theorem jump_table_bounds_inverted (jt : JumpTable) (m : Mem) (index value : Z) :
  (index < jt_length jt ->
     jt_set jt index value = Panicked "Index out of bound"%string /\
     jt_get jt m index = Panicked "Index out of bound"%string) /\
  (forall ws, jt_set jt index value = Done ws -> jt_length jt < index) /\
  (forall r, jt_get jt m index = Done r -> jt_length jt < index) /\
  (forall capacity ws o, 0 <= capacity ->
     jt_set (JumpTable_new capacity) index value = Done ws ->
     In o (offsets ws) -> jt_data_len (JumpTable_new capacity) <= o).
Proof.
  split; [|split; [|split]].
  - intros H. unfold jt_set, jt_get.
    destruct (Z.ltb_spec (jt_length jt) index); [lia|]. split; reflexivity.
  - intros ws. unfold jt_set.
    destruct (Z.ltb_spec (jt_length jt) index); [auto | discriminate].
  - intros r. unfold jt_get.
    destruct (Z.ltb_spec (jt_length jt) index); [auto | discriminate].
  - intros capacity ws o Hc Hws Ho.
    assert (Hi : capacity < index).
    { unfold jt_set in Hws. cbn [jt_length JumpTable_new] in Hws.
      destruct (Z.ltb_spec capacity index); [lia | discriminate]. }
    pose proof (jt_set_offsets _ _ _ _ _ Hws Ho).
    cbn [jt_data_len JumpTable_new]. unfold calculate_length, HEADER_SIZE,
      MAGIC_KEY_SIZE, VERSION_SIZE in *. lia.
Qed.

Lemma jump_table_bounds_inverted_witness :
  3 < jt_length (JumpTable_new 10) /\
  jt_set (JumpTable_new 10) 3 7 = Panicked "Index out of bound"%string.
Proof.
  split; [cbn; lia|].
  apply (proj1 (proj1 (jump_table_bounds_inverted (JumpTable_new 10) (fun _ => 0) 3 7)
                  ltac:(cbn; lia))).
Defined.

End JumpTableClaims.

(** * Opening a database *)
Module OpenClaims.

(** C1 (code bug): [Db::init] never reads or validates the Meta copies
    (its [if meta_data.len() == 0 {}] is empty), so [Db::open] succeeds on
    a four-page file where neither Meta copy validates instead of failing
    with [DatabaseInvalid]. *)
Lemma open_accepts_invalid_metas :
  validate zero_meta = Err DatabaseInvalid /\
  fs_file corrupt_fs = Some (mkDataFile (OS_PAGE_SIZE * 4) (Some zero_meta) (Some zero_meta)) /\
  fst (open io_ok None corrupt_fs) = Ok tt.
Proof. split; [|split]; reflexivity. Qed.

Ltac run_io env :=
  repeat (cbv [bind ret fail get_fs modify syscall open_file mmap_open on_return
               update_file set_len option_map] in *;
          cbn [fs_file fs_locked file_len fst snd negb] in *;
          match goal with
          | |- context [env ?op] => destruct (env op)
          | |- context [read_only ?st] => destruct (read_only st)
          end).

(** C8: when no file exists, [Db::open] fails with [DatabaseNotFound] and
    leaves the file system alone if [auto_create] is off; if it is on, it
    never reports [DatabaseNotFound], and when the system calls succeed it
    creates a four-page file holding two default Meta copies. *)
Theorem open_missing_file (env : IoEnv) (st : option Settings) (s : Fs) :
  fs_file s = None ->
  (auto_create (unwrap_settings st) = false ->
     open env st s = (Err DatabaseNotFound, s)) /\
  (auto_create (unwrap_settings st) = true ->
     fst (open env st s) <> Err DatabaseNotFound /\
     open io_ok st s =
       (Ok tt, mkFs (Some (mkDataFile (OS_PAGE_SIZE * 4) (Some Meta_default) (Some Meta_default)))
                    (fs_locked s))).
Proof.
  destruct s as [file locked]. cbn [fs_file fs_locked]. intros ->.
  unfold open, create. cbv [bind get_fs]. cbn [fs_file].
  destruct (auto_create (unwrap_settings st)).
  - split; [discriminate|]. intros _. split.
    + run_io env; discriminate.
    + cbv [io_ok]. run_io env. reflexivity.
  - split; [reflexivity | discriminate].
Qed.

Lemma open_missing_file_witness :
  fs_file (mkFs None false) = None /\
  auto_create (unwrap_settings None) = true /\
  open io_ok None (mkFs None false) =
    (Ok tt, mkFs (Some (mkDataFile (OS_PAGE_SIZE * 4) (Some Meta_default) (Some Meta_default))) false).
Proof.
  split; [reflexivity|]. split; [reflexivity|].
  apply (proj2 (proj2 (open_missing_file io_ok None (mkFs None false) eq_refl)
                  eq_refl)).
Defined.

End OpenClaims.

(** * Further properties of the code *)

(** ** LEB128 *)
Module LebFacts.
Import Leb.

Lemma store_app (m : Mem) (ws1 ws2 : list Write) :
  store m (ws1 ++ ws2) = store (store m ws1) ws2.
Proof. unfold store. apply fold_left_app. Qed.

Lemma put_bytes_load : forall bs off m j,
  store m (put_bytes off bs) j =
  if (off <=? j) && (j <? off + Z.of_nat (length bs)) then nth (Z.to_nat (j - off)) bs 0
  else m j.
Proof.
  induction bs as [|b bs IH]; intros off m j.
  - cbn [put_bytes length]. destruct (Z.leb_spec off j), (Z.ltb_spec j (off + Z.of_nat 0));
      simpl; try reflexivity; lia.
  - cbn [put_bytes length]. rewrite store_cons, IH.
    destruct (Z.leb_spec (off + 1) j), (Z.ltb_spec j (off + 1 + Z.of_nat (length bs))),
      (Z.leb_spec off j), (Z.ltb_spec j (off + Z.of_nat (S (length bs)))), (Z.eqb_spec j off);
      simpl; try lia; try reflexivity.
    + replace (Z.to_nat (j - off)) with (S (Z.to_nat (j - (off + 1)))) by lia. reflexivity.
    + subst. rewrite Z.sub_diag. reflexivity.
Qed.

Lemma offsets_put_bytes : forall bs off,
  offsets (put_bytes off bs) = map (fun k => off + Z.of_nat k) (seq 0 (length bs)).
Proof.
  induction bs as [|b bs IH]; intros off; [reflexivity|].
  cbn [put_bytes length offsets map fst seq]. unfold offsets in IH. rewrite IH.
  f_equal; [lia|]. rewrite <- seq_shift, map_map. apply map_ext. intros; lia.
Qed.

Lemma load_put_bytes_seq : forall bs off m,
  map (fun k => load (store m (put_bytes off bs)) (off + Z.of_nat k)) (seq 0 (length bs)) = bs.
Proof.
  induction bs as [|b bs IH]; intros off m; [reflexivity|].
  cbn [put_bytes length seq map]. rewrite store_cons. f_equal.
  - unfold load. rewrite put_bytes_load.
    destruct (Z.leb_spec (off + 1) (off + Z.of_nat 0)); [lia|].
    cbn [andb]. rewrite Z.add_0_r, Z.eqb_refl. reflexivity.
  - rewrite <- seq_shift, map_map.
    rewrite <- (IH (off + 1) (fun x => if x =? off then b else m x)) at 2.
    apply map_ext. intros k. f_equal. lia.
Qed.

Lemma le_bytes_length : forall n x, length (le_bytes n x) = n.
Proof. induction n; intros; simpl; auto. Qed.

Lemma le_word_le_bytes : forall n x, Sip.le_word (le_bytes n x) = x mod 2 ^ (8 * Z.of_nat n).
Proof.
  induction n as [|n IH]; intros x.
  - simpl. rewrite Z.mod_1_r. reflexivity.
  - cbn [le_bytes Sip.le_word]. rewrite IH.
    rewrite <- !Z.land_ones by lia.
    replace (8 * Z.of_nat (S n)) with (8 * Z.of_nat n + 8) by lia.
    change 255 with (Z.ones 8). Z.bitblast.
Qed.

Lemma testbit_1 l : Z.testbit 1 l = (l =? 0).
Proof. destruct l; reflexivity. Qed.

(** [Z.bitblast], then the bits of the constant 1. *)
Ltac bb := Z.bitblast; rewrite ?testbit_1;
  repeat match goal with |- context [?l =? 0] => destruct (Z.eqb_spec l 0) end;
  try (exfalso; lia);
  try (repeat match goal with |- context [Z.testbit ?a ?b] => destruct (Z.testbit a b) end;
       reflexivity).

Lemma add_nocarry_lor a b : Z.land a b = 0 -> Z.lor a b = a + b.
Proof. intros H. rewrite <- Z.lxor_lor by exact H. symmetry. apply Z.add_nocarry_lxor. exact H. Qed.

Lemma cont_byte_low w : Z.land (Z.lor (Z.land w 255) 128) 127 = Z.land w 127.
Proof.
  change 255 with (Z.ones 8). change 127 with (Z.ones 7). change 128 with (Z.shiftl 1 7).
  bb.
Qed.

Lemma cont_byte_value w : Z.lor (Z.land w 255) 128 = w mod 128 + 128.
Proof.
  rewrite <- add_nocarry_lor.
  - change (w mod 128) with (w mod 2 ^ 7). rewrite <- Z.land_ones by lia.
    change 255 with (Z.ones 8). change 128 with (Z.shiftl 1 7). bb.
  - change (w mod 128) with (w mod 2 ^ 7). rewrite <- Z.land_ones by lia.
    change 128 with (Z.shiftl 1 7). bb.
Qed.

Lemma small_byte w : 0 <= w < 256 -> Z.land w 255 = w.
Proof. intros. change 255 with (Z.ones 8). rewrite Z.land_ones, Z.mod_small; lia. Qed.

Lemma lor_shift_add acc x s :
  0 <= s -> 0 <= acc < 2 ^ s -> 0 <= x -> x * 2 ^ s <= u64_max ->
  Z.lor acc (Z.land (Z.shiftl x s) u64_max) = acc + x * 2 ^ s.
Proof.
  intros Hs Hacc Hx Hb. unfold u64_max in *.
  replace (2 ^ 64 - 1) with (Z.ones 64) by reflexivity.
  rewrite Z.land_ones, Z.shiftl_mul_pow2, Z.mod_small by lia.
  rewrite <- add_nocarry_lor; [reflexivity|].
  rewrite <- (Z.mod_small acc (2 ^ s)) by lia. rewrite <- Z.land_ones by lia.
  rewrite <- Z.shiftl_mul_pow2 by lia.
  apply Z.bits_inj'. intros i Hi.
  rewrite Z.land_spec, Z.testbit_0_l, Z.land_spec, Z.testbit_ones_nonneg by lia.
  destruct (Z.ltb_spec i s).
  - rewrite Z.shiftl_spec_low by lia. destruct (Z.testbit acc i); reflexivity.
  - destruct (Z.testbit acc i); reflexivity.
Qed.

Lemma enc_loop_offsets_ge : forall f o w j, In j (offsets (snd (enc_loop f o w))) -> o <= j.
Proof.
  induction f as [|f IH]; intros o w j Hj; cbn [enc_loop] in Hj.
  - cbn in Hj. destruct Hj as [<-|[]]. lia.
  - destruct (127 <? w).
    + destruct (enc_loop f (o + 1) (Z.shiftr w 7)) as [r ws] eqn:E.
      cbn [snd offsets map fst] in Hj. destruct Hj as [<-|Hj]; [lia|].
      specialize (IH (o + 1) (Z.shiftr w 7) j). rewrite E in IH. simpl in IH. specialize (IH Hj). lia.
    + cbn in Hj. destruct Hj as [<-|[]]. lia.
Qed.

Lemma enc_loop_leb_at : forall f off w m, leb_at (store m (snd (enc_loop f off w))) off f w.
Proof.
  induction f as [|f IH]; intros off w m; cbn [enc_loop leb_at].
  - unfold load. cbn. rewrite Z.eqb_refl. reflexivity.
  - destruct (127 <? w) eqn:Hw.
    + specialize (IH (off + 1) (Z.shiftr w 7)).
      pose proof (enc_loop_offsets_ge f (off + 1) (Z.shiftr w 7) off) as Hge.
      destruct (enc_loop f (off + 1) (Z.shiftr w 7)) as [r ws] eqn:E. simpl snd in *.
      rewrite store_cons. split.
      * unfold load. rewrite store_notin; [now rewrite Z.eqb_refl|]. intros Hin. specialize (Hge Hin). lia.
      * apply IH.
    + unfold load. cbn. rewrite Z.eqb_refl. reflexivity.
Qed.

Lemma pow7_succ f : 2 ^ (7 * Z.of_nat (S f)) = 2 ^ (7 * Z.of_nat f) * 128.
Proof.
  replace (7 * Z.of_nat (S f)) with (7 * Z.of_nat f + 7) by lia.
  rewrite Z.pow_add_r by lia. reflexivity.
Qed.

Lemma dec_loop_leb_at : forall f fd w off s acc m,
  leb_at m off f w -> 1 <= w < 2 ^ (7 * Z.of_nat f) -> w * 2 ^ s <= u64_max ->
  0 <= acc < 2 ^ s -> 7 <= s -> 64 <= s + 7 * Z.of_nat fd ->
  dec_loop fd m off s acc = Done (acc + w * 2 ^ s).
Proof.
  induction f as [|f IH]; intros fd w off s acc m Hat Hw Hb Hacc Hs Hfd.
  - simpl in Hw. lia.
  - assert (Hs64 : s < 64).
    { destruct (Z.lt_ge_cases s 64) as [|Hge]; [assumption|].
      assert (2 ^ 64 <= 2 ^ s) by (apply Z.pow_le_mono_r; lia). unfold u64_max in Hb. nia. }
    destruct fd as [|fd]; [lia|].
    assert (HP : 0 < 2 ^ s) by (apply Z.pow_pos_nonneg; lia).
    cbn [dec_loop leb_at] in *. destruct (Z.leb_spec 64 s); [lia|].
    destruct (Z.ltb_spec 127 w) as [Hbig|Hsmall]; cbv iota in Hat.
    + destruct Hat as [H0 Hat]. rewrite H0, cont_byte_low, cont_byte_value.
      pose proof (Z.mod_pos_bound w 128 ltac:(lia)).
      destruct (Z.ltb_spec (w mod 128 + 128) 128); [lia|].
      change 127 with (Z.ones 7). rewrite Z.land_ones by lia. change (2 ^ 7) with 128.
      pose proof (Z.div_mod w 128 ltac:(lia)) as Hdm.
      rewrite lor_shift_add by nia.
      rewrite Z.shiftr_div_pow2 in Hat by lia. change (2 ^ 7) with 128 in Hat.
      rewrite pow7_succ in Hw.
      assert (HP7 : 2 ^ (s + 7) = 2 ^ s * 128) by (rewrite Z.pow_add_r; lia).
      assert (Hq1 : 1 <= w / 128 < 2 ^ (7 * Z.of_nat f)).
      { split; [apply Z.div_le_lower_bound; lia | apply Z.div_lt_upper_bound; lia]. }
      assert (Hq2 : w / 128 * 2 ^ (s + 7) <= u64_max) by (rewrite HP7; nia).
      assert (Hq3 : 0 <= acc + w mod 128 * 2 ^ s < 2 ^ (s + 7)) by (rewrite HP7; nia).
      rewrite (IH fd (w / 128) (off + 1) (s + 7) _ m Hat Hq1 Hq2 Hq3) by lia.
      f_equal. rewrite HP7. nia.
    + rewrite Hat, small_byte by lia.
      destruct (Z.ltb_spec w 128); [|lia].
      replace (Z.land w 127) with w
        by (change 127 with (Z.ones 7); rewrite Z.land_ones, Z.mod_small; lia).
      rewrite lor_shift_add by lia. reflexivity.
Qed.

(** A memory holding the encoder's bytes for a [u64] decodes to it. *)
Lemma decode_leb_at (m : Mem) (v : Z) :
  is_u64 v -> leb_at m 0 64 v -> decode_leb_u64 m = Done v.
Proof.
  intros Hv Hat. unfold is_u64, u64_max in Hv. unfold decode_leb_u64.
  cbn [leb_at] in Hat. destruct (Z.ltb_spec 127 v); cbv iota in Hat.
  - destruct Hat as [H0 Hat]. rewrite H0, cont_byte_low, cont_byte_value.
    pose proof (Z.mod_pos_bound v 128 ltac:(lia)).
    destruct (Z.ltb_spec (v mod 128 + 128) 128); [lia|].
    rewrite Z.shiftr_div_pow2 in Hat by lia. change (2 ^ 7) with 128 in Hat.
    change 127 with (Z.ones 7). rewrite Z.land_ones by lia. change (2 ^ 7) with 128.
    pose proof (Z.div_mod v 128 ltac:(lia)).
    rewrite (dec_loop_leb_at 63 10 (v / 128) 1 7 (v mod 128) m Hat).
    + f_equal. change (2 ^ 7) with 128. lia.
    + split; [apply Z.div_le_lower_bound; lia|]. apply Z.div_lt_upper_bound; [lia|].
      change (7 * Z.of_nat 63) with 441.
      assert (2 ^ 64 <= 2 ^ 441) by (apply Z.pow_le_mono_r; lia). lia.
    + unfold u64_max. change (2 ^ 7) with 128. lia.
    + change (2 ^ 7) with 128. lia.
    + lia.
    + simpl. lia.
  - rewrite Hat, small_byte by lia. destruct (Z.ltb_spec v 128); [reflexivity|lia].
Qed.

Lemma enc_loop_shape : forall f off w,
  0 <= w < 2 ^ (7 * Z.of_nat f) ->
  let '(r, ws) := enc_loop f off w in
  (1 <= length ws)%nat /\
  offsets ws = map (fun k => off + Z.of_nat k) (seq 0 (length ws)) /\
  r = off + Z.of_nat (length ws) - 1 /\
  w < 2 ^ (7 * Z.of_nat (length ws)) /\
  (length ws = 1%nat \/ 2 ^ (7 * (Z.of_nat (length ws) - 1)) <= w).
Proof.
  induction f as [|f IH]; intros off w Hw.
  - simpl in Hw. cbn. rewrite Z.add_0_r. repeat split; try lia; auto.
  - cbn [enc_loop]. destruct (Z.ltb_spec 127 w).
    + specialize (IH (off + 1) (Z.shiftr w 7)).
      rewrite Z.shiftr_div_pow2 in * by lia. change (2 ^ 7) with 128 in *.
      rewrite pow7_succ in Hw.
      assert (Hq : 0 <= w / 128 < 2 ^ (7 * Z.of_nat f)).
      { split; [apply Z.div_pos; lia | apply Z.div_lt_upper_bound; lia]. }
      specialize (IH Hq).
      destruct (enc_loop f (off + 1) (w / 128)) as [r ws] eqn:E.
      destruct IH as (Hlen & Hoff & Hr & Hlt & Hge).
      pose proof (Z.div_mod w 128 ltac:(lia)).
      pose proof (Z.mod_pos_bound w 128 ltac:(lia)).
      cbn [length offsets map fst]. unfold offsets in Hoff.
      repeat split.
      * lia.
      * rewrite Hoff. cbn [seq map]. f_equal; [lia|].
        rewrite <- seq_shift, map_map. apply map_ext. intros; lia.
      * lia.
      * rewrite pow7_succ. lia.
      * right. replace (Z.of_nat (S (length ws)) - 1) with (Z.of_nat (length ws)) by lia.
        destruct Hge as [Hl1|Hl1].
        -- rewrite Hl1. change (2 ^ (7 * Z.of_nat 1)) with 128. lia.
        -- replace (7 * Z.of_nat (length ws)) with (7 * (Z.of_nat (length ws) - 1) + 7) by lia.
           rewrite Z.pow_add_r by lia. change (2 ^ 7) with 128. lia.
    + cbn. rewrite Z.add_0_r. repeat split; try lia; auto.
Qed.

Lemma leb_at_cont m off f w :
  127 < w -> load m off = Z.lor (Z.land w 255) 128 -> leb_at m (off + 1) f (Z.shiftr w 7) ->
  leb_at m off (S f) w.
Proof.
  intros Hw Hb Hn. cbn [leb_at]. destruct (Z.ltb_spec 127 w); [|lia]. split; assumption.
Qed.

Lemma leb_at_last m off f w :
  0 <= w <= 127 -> load m off = Z.land w 255 -> leb_at m off (S f) w.
Proof.
  intros Hw Hb. cbn [leb_at]. destruct (Z.ltb_spec 127 w); [lia|]. assumption.
Qed.

Lemma byte_cont x : Z.land (Z.lor x 128) 255 = Z.lor (Z.land x 255) 128.
Proof. change 255 with (Z.ones 8). change 128 with (Z.shiftl 1 7). bb. Qed.

Lemma shr_big v s : 0 <= s -> 2 ^ (s + 7) <= v -> 127 < Z.shiftr v s.
Proof.
  intros Hs Hv. rewrite Z.pow_add_r in Hv by lia. change (2 ^ 7) with 128 in Hv.
  rewrite Z.shiftr_div_pow2 by lia.
  assert (0 < 2 ^ s) by (apply Z.pow_pos_nonneg; lia).
  assert (128 <= v / 2 ^ s) by (apply Z.div_le_lower_bound; lia). lia.
Qed.

Lemma shr_small v s : 0 <= s -> 0 <= v < 2 ^ (s + 7) -> 0 <= Z.shiftr v s <= 127.
Proof.
  intros Hs Hv. rewrite Z.pow_add_r in Hv by lia. change (2 ^ 7) with 128 in Hv.
  rewrite Z.shiftr_div_pow2 by lia.
  assert (0 < 2 ^ s) by (apply Z.pow_pos_nonneg; lia).
  split; [apply Z.div_pos; lia|].
  assert (v / 2 ^ s < 128) by (apply Z.div_lt_upper_bound; lia). lia.
Qed.

Lemma shr_zero x k s : 0 <= x < 2 ^ k -> 0 <= k <= s -> Z.land (Z.shiftr x s) 255 = 0.
Proof.
  intros Hx Hk. rewrite Z.shiftr_div_pow2 by lia.
  assert (2 ^ k <= 2 ^ s) by (apply Z.pow_le_mono_r; lia).
  rewrite Z.div_small by lia. reflexivity.
Qed.

(** Reading one byte back after a sequence of [put]s. *)
Ltac rd := unfold load, put; rewrite ?store_app, ?put_bytes_load; cbn -[Z.shiftr Z.land Z.lor].

Ltac norm_pow :=
  try change (2 ^ 7) with 128 in *; try change (2 ^ 14) with 16384 in *;
  try change (2 ^ 21) with 2097152 in *; try change (2 ^ 28) with 268435456 in *;
  try change (2 ^ 32) with 4294967296 in *.

Ltac cont_step :=
  apply leb_at_cont;
  [ first [lia | apply shr_big; norm_pow; lia]
  | rd; first [apply byte_cont | rewrite ?Z.shiftr_shiftr by lia; apply byte_cont]
  | rewrite ?Z.shiftr_shiftr by lia ].

Ltac last_step :=
  apply leb_at_last;
  [ first [lia | apply shr_small; norm_pow; lia]
  | rd; rewrite ?Z.shiftr_shiftr by lia; reflexivity ].

Lemma encode_leb_u32_leb_at (m : Mem) (v : Z) :
  is_u32 v -> leb_at (store m (snd (encode_leb_u32 v))) 0 64 v.
Proof.
  intros Hv. unfold is_u32 in Hv. unfold encode_leb_u32.
  destruct (Z.ltb_spec v (2 ^ 7)); [|destruct (Z.ltb_spec v (2 ^ 14));
    [|destruct (Z.ltb_spec v (2 ^ 21)); [|destruct (Z.ltb_spec v (2 ^ 28))]]];
    cbn [snd]; norm_pow.
  - last_step.
  - cont_step. last_step.
  - cont_step. cont_step. last_step.
  - cont_step. cont_step. cont_step. last_step.
  - cont_step. cont_step. cont_step. cont_step. last_step.
Qed.

End LebFacts.

Module LebTheorems.
Import Leb LebFacts.

(** X1: [decode_leb_u64] reads back what [encode_leb_u64] wrote: for every
    [u64] value [v], decoding the bytes the encoder stored yields [v]. *)
Theorem leb_u64_roundtrip (m : Mem) (v : Z) :
  is_u64 v -> decode_leb_u64 (store m (snd (encode_leb_u64 v))) = Done v.
Proof.
  intros Hv. apply decode_leb_at; [assumption|]. apply enc_loop_leb_at.
Qed.

Lemma leb_u64_roundtrip_witness :
  is_u64 300 /\ decode_leb_u64 (store (fun _ => 0) (snd (encode_leb_u64 300))) = Done 300.
Proof.
  split; [unfold is_u64, u64_max; lia|].
  apply leb_u64_roundtrip. unfold is_u64, u64_max; lia.
Defined.

(** X2: [encode_leb_u64] writes its [n] bytes at offsets [0 .. n-1], where
    [n] is the least number with [v < 2^(7n)] (at most 10 for a [u64]), and
    returns [n - 1], the offset of the last byte, not the number of bytes. *)
Theorem leb_u64_layout (v : Z) :
  is_u64 v ->
  let '(r, ws) := encode_leb_u64 v in
  offsets ws = map Z.of_nat (seq 0 (length ws)) /\
  r = Z.of_nat (length ws) - 1 /\
  (length ws <= 10)%nat /\
  v < 2 ^ (7 * Z.of_nat (length ws)) /\
  (length ws = 1%nat \/ 2 ^ (7 * (Z.of_nat (length ws) - 1)) <= v).
Proof.
  intros Hv. unfold is_u64, u64_max in Hv.
  assert (Hf : 0 <= v < 2 ^ (7 * Z.of_nat 64)).
  { split; [lia|]. assert (2 ^ 64 <= 2 ^ (7 * Z.of_nat 64)) by (apply Z.pow_le_mono_r; lia). lia. }
  pose proof (enc_loop_shape 64 0 v Hf) as Hs. unfold encode_leb_u64.
  destruct (enc_loop 64 0 v) as [r ws].
  destruct Hs as (Hlen & Hoff & Hr & Hlt & Hge).
  split; [rewrite Hoff; apply map_ext; intros; lia|].
  split; [lia|]. split; [|split; assumption].
  - destruct Hge as [->|Hge]; [lia|].
    destruct (Z.le_gt_cases (7 * (Z.of_nat (length ws) - 1)) 63) as [|Hbig]; [lia|].
    assert (2 ^ 64 <= 2 ^ (7 * (Z.of_nat (length ws) - 1))) by (apply Z.pow_le_mono_r; lia).
    lia.
Qed.

Lemma leb_u64_layout_witness :
  is_u64 300 /\
  (let '(r, ws) := encode_leb_u64 300 in
   offsets ws = map Z.of_nat (seq 0 (length ws)) /\
   r = Z.of_nat (length ws) - 1 /\
   (length ws <= 10)%nat /\
   300 < 2 ^ (7 * Z.of_nat (length ws)) /\
   (length ws = 1%nat \/ 2 ^ (7 * (Z.of_nat (length ws) - 1)) <= 300)).
Proof.
  split; [unfold is_u64, u64_max; lia|].
  apply (leb_u64_layout 300). unfold is_u64, u64_max; lia.
Defined.

(** X3: [decode_leb_u32] reads back what [encode_leb_u32] wrote: for every
    [u32] value [v], decoding the stored bytes yields [v], although the
    encoder stores whole [u32] words that overlap. *)
Theorem leb_u32_roundtrip (m : Mem) (v : Z) :
  is_u32 v -> decode_leb_u32 (store m (snd (encode_leb_u32 v))) = Done v.
Proof.
  intros Hv. unfold decode_leb_u32.
  rewrite (decode_leb_at _ v).
  - f_equal. apply Z.mod_small. exact Hv.
  - unfold is_u32 in Hv. unfold is_u64, u64_max. lia.
  - apply encode_leb_u32_leb_at. exact Hv.
Qed.

Lemma leb_u32_roundtrip_witness :
  is_u32 300 /\ decode_leb_u32 (store (fun _ => 0) (snd (encode_leb_u32 300))) = Done 300.
Proof.
  split; [unfold is_u32; lia|].
  apply leb_u32_roundtrip. unfold is_u32; lia.
Defined.

Ltac zero_tail k :=
  rd; rewrite ?Z.shiftr_shiftr by lia; apply (shr_zero _ k); norm_pow; lia.

(** X4: for [128 <= v < 2^32], [encode_leb_u32] returns the length [n] of the
    encoding but stores into offsets [0 .. n+2]: its last [u32] store
    overwrites the three bytes after the encoding with zeros. *)
Theorem leb_u32_overrun (m : Mem) (v : Z) :
  is_u32 v -> 128 <= v ->
  let '(n, ws) := encode_leb_u32 v in
  (forall j, In j (offsets ws) <-> 0 <= j < n + 3) /\
  (forall j, n <= j < n + 3 -> store m ws j = 0).
Proof.
  intros Hv H128. unfold is_u32 in Hv. unfold encode_leb_u32.
  destruct (Z.ltb_spec v (2 ^ 7)); [|destruct (Z.ltb_spec v (2 ^ 14));
    [|destruct (Z.ltb_spec v (2 ^ 21)); [|destruct (Z.ltb_spec v (2 ^ 28))]]];
    norm_pow; [lia| | | |].
  - split.
    + intros j. unfold offsets, put. cbn -[Z.shiftr Z.land Z.lor]. split; intros; lia.
    + intros j Hj. assert (Hj' : j = 2 \/ j = 3 \/ j = 4) by lia; destruct Hj' as [ -> | [ -> | -> ] ]; zero_tail 14.
  - split.
    + intros j. unfold offsets, put. cbn -[Z.shiftr Z.land Z.lor]. split; intros; lia.
    + intros j Hj. assert (Hj' : j = 3 \/ j = 4 \/ j = 5) by lia; destruct Hj' as [ -> | [ -> | -> ] ]; zero_tail 21.
  - split.
    + intros j. unfold offsets, put. cbn -[Z.shiftr Z.land Z.lor]. split; intros; lia.
    + intros j Hj. assert (Hj' : j = 4 \/ j = 5 \/ j = 6) by lia; destruct Hj' as [ -> | [ -> | -> ] ]; zero_tail 28.
  - split.
    + intros j. unfold offsets, put. cbn -[Z.shiftr Z.land Z.lor]. split; intros; lia.
    + intros j Hj. assert (Hj' : j = 5 \/ j = 6 \/ j = 7) by lia; destruct Hj' as [ -> | [ -> | -> ] ]; zero_tail 32.
Qed.

Lemma leb_u32_overrun_witness :
  is_u32 300 /\ 128 <= 300 /\
  (let '(n, ws) := encode_leb_u32 300 in
   (forall j, In j (offsets ws) <-> 0 <= j < n + 3) /\
   (forall j, n <= j < n + 3 -> store (fun _ => 7) ws j = 0)).
Proof.
  split; [unfold is_u32; lia|]. split; [lia|].
  apply (leb_u32_overrun (fun _ => 7) 300); [unfold is_u32; lia | lia].
Defined.

End LebTheorems.

(** ** Varint decoding reads only the encoding *)
Module VarintExtras.
Import Varint.

Lemma dec_loop_ext : forall fuel i v (m1 m2 : Mem),
  (forall j, i <= j < i + Z.of_nat fuel -> m1 j = m2 j) ->
  dec_loop m1 i fuel v = dec_loop m2 i fuel v.
Proof.
  induction fuel as [|f IH]; intros i v m1 m2 H; [reflexivity|].
  cbn [dec_loop]. unfold load. rewrite (H i) by lia.
  apply IH. intros j Hj. apply H. lia.
Qed.

(** X5: [decode_varint_u64] reads nothing past the encoding its first byte
    announces: two memories that agree on those [varint_len] bytes decode to
    the same value. *)
Theorem decode_reads_only_encoding (m1 m2 : Mem) :
  (forall j, 0 <= j < varint_len (load m1 0) -> load m1 j = load m2 j) ->
  decode_varint_u64 m1 = decode_varint_u64 m2.
Proof.
  intros H. unfold varint_len in H. unfold decode_varint_u64.
  unfold VARINT_CUT1, VARINT_CUT2 in *.
  assert (H0 : load m1 0 = load m2 0).
  { apply H. destruct (Z.ltb_spec (load m1 0) 201), (Z.ltb_spec (load m1 0) 249); lia. }
  rewrite <- H0.
  destruct (Z.ltb_spec (load m1 0) 201); [reflexivity|].
  destruct (Z.ltb_spec (load m1 0) 249).
  - rewrite (H 1) by lia. reflexivity.
  - rewrite (H 1) by lia. apply dec_loop_ext. intros j Hj.
    rewrite Z2Nat.id in Hj by lia. apply H. lia.
Qed.

Lemma decode_reads_only_encoding_witness :
  (forall j, 0 <= j < varint_len (load (store (fun _ => 0) (snd (encode_varint_u64 300))) 0) ->
     load (store (fun _ => 0) (snd (encode_varint_u64 300))) j =
     load (fun j => if j <? 2 then store (fun _ => 0) (snd (encode_varint_u64 300)) j else 99) j) /\
  decode_varint_u64 (store (fun _ => 0) (snd (encode_varint_u64 300))) =
  decode_varint_u64 (fun j => if j <? 2 then store (fun _ => 0) (snd (encode_varint_u64 300)) j else 99).
Proof.
  assert (Hag : forall j, 0 <= j < varint_len (load (store (fun _ => 0) (snd (encode_varint_u64 300))) 0) ->
     load (store (fun _ => 0) (snd (encode_varint_u64 300))) j =
     load (fun j => if j <? 2 then store (fun _ => 0) (snd (encode_varint_u64 300)) j else 99) j).
  { intros j Hj.
    assert (E : varint_len (load (store (fun _ => 0) (snd (encode_varint_u64 300))) 0) = 2)
      by (vm_compute; reflexivity).
    rewrite E in Hj. unfold load. destruct (Z.ltb_spec j 2); [reflexivity | lia]. }
  split; [exact Hag|]. apply decode_reads_only_encoding. exact Hag.
Defined.

End VarintExtras.

(** ** JumpTable *)
Module JumpTableExtras.
Import Leb LebFacts.

Lemma Done_inj {A} (a b : A) : Done a = Done b -> a = b.
Proof. intros H. inversion H. reflexivity. Qed.

Lemma Ok_inj {A} (a b : A) : Ok a = Ok b -> a = b.
Proof. intros H. inversion H. reflexivity. Qed.

Lemma combine_put_bytes : forall bs off s,
  combine (map (fun k => off + Z.of_nat k) (seq s (length bs))) bs = put_bytes (off + Z.of_nat s) bs.
Proof.
  induction bs as [|b bs IH]; intros off s; [reflexivity|].
  cbn [length seq map combine put_bytes]. rewrite IH. f_equal. f_equal. lia.
Qed.

Lemma jt_set_writes jt i v ws :
  jt_set jt i v = Done ws ->
  jt_length jt < i /\ ws = put_bytes (64 * i + HEADER_SIZE) (le_bytes 8 v).
Proof.
  unfold jt_set. destruct (Z.ltb_spec (jt_length jt) i); intros Hset; [|discriminate].
  apply Done_inj in Hset. subst ws. split; [assumption|].
  change (seq 0 8) with (seq 0 (length (le_bytes 8 v))).
  rewrite combine_put_bytes. rewrite Z.add_0_r. reflexivity.
Qed.

(** X6: [JumpTable::get] returns what [JumpTable::set] stored at the same
    index: when [set(index, value)] does not panic, [get(index)] on the
    updated map returns [value]. *)
Theorem set_then_get (jt : JumpTable) (m : Mem) (index value : Z) (ws : list Write) :
  jt_set jt index value = Done ws -> is_u64 value ->
  jt_get jt (store m ws) index = Done value.
Proof.
  intros Hs Hv. apply jt_set_writes in Hs as [Hlt ->].
  unfold jt_get. destruct (Z.ltb_spec (jt_length jt) index); [|lia].
  cbv zeta.
  change (seq 0 8) with (seq 0 (length (le_bytes 8 value))).
  rewrite load_put_bytes_seq, le_word_le_bytes.
  f_equal. apply Z.mod_small. unfold is_u64, u64_max in Hv.
  change (2 ^ (8 * Z.of_nat 8)) with (2 ^ 64). lia.
Qed.

Lemma set_then_get_witness :
  (exists ws, jt_set (JumpTable_new 0) 1 5 = Done ws /\ is_u64 5 /\
     jt_get (JumpTable_new 0) (store (fun _ => 0) ws) 1 = Done 5).
Proof.
  eexists. split; [reflexivity|]. split; [unfold is_u64, u64_max; lia|].
  apply set_then_get; [reflexivity | unfold is_u64, u64_max; lia].
Defined.

(** X7: [JumpTable::set] at one index leaves every other index as it was:
    [get(j)] after [set(i, value)] with [j <> i] returns what it returned
    before (or panics as before). *)
Theorem set_keeps_other_indexes (jt : JumpTable) (m : Mem) (i j value : Z) (ws : list Write) :
  jt_set jt i value = Done ws -> j <> i ->
  jt_get jt (store m ws) j = jt_get jt m j.
Proof.
  intros Hs Hji. apply jt_set_writes in Hs as [Hlt ->].
  unfold jt_get. destruct (jt_length jt <? j); [|reflexivity].
  cbv zeta. f_equal. f_equal. apply map_ext_in. intros k Hk. apply in_seq in Hk.
  unfold load. rewrite put_bytes_load, le_bytes_length.
  unfold HEADER_SIZE, MAGIC_KEY_SIZE, VERSION_SIZE.
  destruct (Z.leb_spec (64 * i + (32 + 32)) (64 * j + (32 + 32) + Z.of_nat k)),
    (Z.ltb_spec (64 * j + (32 + 32) + Z.of_nat k) (64 * i + (32 + 32) + Z.of_nat 8));
    cbn [andb]; try reflexivity; lia.
Qed.

Lemma set_keeps_other_indexes_witness :
  (exists ws, jt_set (JumpTable_new 0) 1 5 = Done ws /\ 2 <> 1 /\
     jt_get (JumpTable_new 0) (store (fun _ => 3) ws) 2 = jt_get (JumpTable_new 0) (fun _ => 3) 2).
Proof.
  eexists. split; [reflexivity|]. split; [lia|].
  apply (set_keeps_other_indexes _ _ 1 2 5); [reflexivity | lia].
Defined.

Lemma new_io_ok env existing cap jt hdr :
  JumpTable_new_io env existing cap = Done (Ok (jt, hdr)) ->
  jt = JumpTable_new cap /\
  hdr = put 4 0 MAGIC_KEY ++ put 4 MAGIC_KEY_SIZE VERSION /\
  (forall n, existing = Some n -> n <= calculate_length cap).
Proof.
  unfold JumpTable_new_io, create_mmap.
  destruct (env OpOpen); [discriminate|]. destruct (env OpMetadata); [discriminate|].
  destruct (Z.ltb_spec (calculate_length cap) (match existing with Some n => n | None => 0 end));
    [discriminate|].
  destruct (env OpSetLen); [discriminate|]. destruct (env OpMmap); [discriminate|].
  intros Hok. apply Done_inj, Ok_inj, pair_equal_spec in Hok as [<- <-].
  split; [reflexivity|]. split; [reflexivity|].
  intros n ->. lia.
Qed.

(** X8: [JumpTable::new] never truncates the file: when it succeeds, the
    table is [JumpTable_new capacity], mapping [calculate_length capacity]
    bytes, which is at least the length of the file that was there. *)
Theorem new_never_truncates (env : IoEnv) (existing : option Z) (cap : Z)
    (jt : JumpTable) (hdr : list Write) :
  JumpTable_new_io env existing cap = Done (Ok (jt, hdr)) ->
  jt = JumpTable_new cap /\
  (forall n, existing = Some n -> n <= jt_data_len jt).
Proof.
  intros H. apply new_io_ok in H as (-> & _ & Hn). split; [reflexivity|]. exact Hn.
Qed.

Lemma new_never_truncates_witness :
  (exists jt hdr, JumpTable_new_io io_ok (Some 100) 10 = Done (Ok (jt, hdr)) /\
     jt = JumpTable_new 10 /\ (forall n, Some 100 = Some n -> n <= jt_data_len jt)).
Proof.
  eexists. eexists. split; [reflexivity|].
  eapply (new_never_truncates io_ok (Some 100) 10). reflexivity.
Defined.

(** X9: when the file can be opened and its metadata read, [JumpTable::new]
    panics with the truncation message exactly when an existing file is
    longer than [calculate_length capacity]. *)
Theorem new_panics_iff_shrink (env : IoEnv) (existing : option Z) (cap : Z) :
  0 <= cap -> env OpOpen = None -> env OpMetadata = None ->
  (JumpTable_new_io env existing cap = Panicked capacity_too_low <->
   exists n, existing = Some n /\ calculate_length cap < n).
Proof.
  intros Hcap Ho Hm. unfold JumpTable_new_io, create_mmap. rewrite Ho, Hm.
  destruct (Z.ltb_spec (calculate_length cap) (match existing with Some n => n | None => 0 end))
    as [Hlt|Hge].
  - split; [intros _|reflexivity]. destruct existing as [n|].
    + exists n. split; [reflexivity | exact Hlt].
    + unfold calculate_length, HEADER_SIZE, MAGIC_KEY_SIZE, VERSION_SIZE in Hlt. lia.
  - split.
    + destruct (env OpSetLen); [discriminate|]. destruct (env OpMmap); discriminate.
    + intros (n & -> & Hn). lia.
Qed.

Lemma new_panics_iff_shrink_witness :
  0 <= 10 /\ io_ok OpOpen = None /\ io_ok OpMetadata = None /\
  JumpTable_new_io io_ok (Some 1000) 10 = Panicked capacity_too_low.
Proof.
  split; [lia|]. split; [reflexivity|]. split; [reflexivity|].
  apply (new_panics_iff_shrink io_ok (Some 1000) 10 ltac:(lia) eq_refl eq_refl).
  exists 1000. split; [reflexivity|]. vm_compute. reflexivity.
Defined.

(** X10: the header [JumpTable::new] writes ([MAGIC_KEY] as a [u32] at
    offset 0 and [VERSION] at offset [MAGIC_KEY_SIZE]) is never overwritten
    by a [JumpTable::set] on the new table. *)
Theorem set_keeps_header (env : IoEnv) (existing : option Z) (cap : Z)
    (jt : JumpTable) (hdr : list Write) (i v : Z) (ws : list Write) (m : Mem) :
  JumpTable_new_io env existing cap = Done (Ok (jt, hdr)) -> 0 <= cap ->
  jt_set jt i v = Done ws ->
  read_u32 (store (store m hdr) ws) 0 = MAGIC_KEY /\
  read_u32 (store (store m hdr) ws) MAGIC_KEY_SIZE = VERSION.
Proof.
  intros Hn Hcap Hs. apply new_io_ok in Hn as (-> & -> & _).
  apply jt_set_writes in Hs as [Hlt ->]. cbn [JumpTable_new jt_length] in Hlt.
  assert (Hlow : forall j, j < 128 ->
    store (store m (put 4 0 MAGIC_KEY ++ put 4 MAGIC_KEY_SIZE VERSION))
      (put_bytes (64 * i + HEADER_SIZE) (le_bytes 8 v)) j =
    store m (put 4 0 MAGIC_KEY ++ put 4 MAGIC_KEY_SIZE VERSION) j).
  { intros j Hj. rewrite put_bytes_load.
    unfold HEADER_SIZE, MAGIC_KEY_SIZE, VERSION_SIZE.
    destruct (Z.leb_spec (64 * i + (32 + 32)) j); [lia|]. reflexivity. }
  unfold read_u32, load. cbn [seq map].
  rewrite !Hlow by (unfold MAGIC_KEY_SIZE; lia).
  unfold put. rewrite store_app, !put_bytes_load. vm_compute. split; reflexivity.
Qed.

Lemma set_keeps_header_witness :
  (exists jt hdr ws, JumpTable_new_io io_ok None 4 = Done (Ok (jt, hdr)) /\ 0 <= 4 /\
     jt_set jt 5 77 = Done ws /\
     read_u32 (store (store (fun _ => 0) hdr) ws) 0 = MAGIC_KEY /\
     read_u32 (store (store (fun _ => 0) hdr) ws) MAGIC_KEY_SIZE = VERSION).
Proof.
  do 3 eexists. split; [reflexivity|]. split; [lia|]. split; [reflexivity|].
  eapply (set_keeps_header io_ok None 4 _ _ 5 77); [reflexivity | lia | reflexivity].
Defined.

End JumpTableExtras.

(** ** Db::open *)
Module OpenExtras.

Ltac fs_simpl :=
  cbv [bind ret fail get_fs modify syscall open_file mmap_open on_return
       update_file set_len option_map empty_file OS_PAGE_SIZE] in *;
  cbn [fs_file fs_locked file_len file_meta0 file_meta1 fst snd negb
       Z.eqb Z.mul Pos.mul Pos.add] in *.

Ltac run_fs env :=
  repeat (fs_simpl;
          match goal with
          | |- context [env ?op] => destruct (env op)
          | |- context [read_only ?st] => destruct (read_only st)
          end);
  fs_simpl.

(** X11: [Db::open] on an existing file of 0 bytes fails with the error of
    [Mmap::open] (os error 22), in read-only and in read-write mode, once
    the file could be opened and its length read; the file system is left
    as it was. *)
Theorem open_empty_file (env : IoEnv) (st : option Settings) (s : Fs) (f : DataFile) :
  fs_file s = Some f -> file_len f = 0 ->
  env OpOpen = None -> env OpMmap = None ->
  open env st s = (Err (Io (IoOther 22)), s).
Proof.
  destruct s as [file lk]. cbn [fs_file]. intros -> Hlen Hop Hmm.
  unfold open, init. cbv [bind get_fs]. cbn [fs_file].
  cbv [on_return open_file mmap_open syscall bind get_fs ret fail].
  rewrite Hop, Hmm. cbn [fs_file fst snd]. rewrite Hlen. cbn.
  destruct (read_only (unwrap_settings st)); reflexivity.
Qed.

Lemma open_empty_file_witness :
  open io_ok None (mkFs (Some empty_file) false) = (Err (Io (IoOther 22)), mkFs (Some empty_file) false).
Proof.
  apply (open_empty_file io_ok None (mkFs (Some empty_file) false) empty_file);
    reflexivity.
Defined.

(** X12: when [Db::open] creates a missing database, a successful call
    leaves a four-page file holding two default Meta copies, which pass
    [Meta::validate]; a call that fails once the file was created leaves
    the file behind, and every Meta copy it holds is rejected by
    [Meta::validate] with [DatabaseInvalid] (after a failed [set_len] the
    file is empty and holds none). *)
Theorem open_create_result (env : IoEnv) (st : option Settings) (s : Fs) :
  fs_file s = None -> auto_create (unwrap_settings st) = true ->
  (fst (open env st s) = Ok tt ->
   fs_file (snd (open env st s)) =
     Some (mkDataFile (OS_PAGE_SIZE * 4) (Some Meta_default) (Some Meta_default)) /\
   validate Meta_default = Ok tt) /\
  (fst (open env st s) <> Ok tt -> env OpOpen = None ->
   exists f, fs_file (snd (open env st s)) = Some f /\
     (env OpSetLen <> None -> f = empty_file) /\
     forall m, file_meta0 f = Some m \/ file_meta1 f = Some m -> validate m = Err DatabaseInvalid).
Proof.
  destruct s as [file lk]. cbn [fs_file]. intros -> Hac.
  unfold open. cbv [bind get_fs]. cbn [fs_file]. rewrite Hac. unfold create.
  run_fs env; cbn [fs_file fst snd] in *; split; intros; try congruence;
    try (split; reflexivity);
    eexists; (split; [reflexivity|]); split; try (intros; congruence);
    cbn [file_meta0 file_meta1]; intros m [Hm | Hm]; try discriminate;
    injection Hm as <-; reflexivity.
Qed.

Lemma open_create_result_witness :
  fs_file (mkFs None false) = None /\ auto_create (unwrap_settings None) = true /\
  fst (open set_len_fails None (mkFs None false)) <> Ok tt /\
  set_len_fails OpOpen = None /\
  exists f, fs_file (snd (open set_len_fails None (mkFs None false))) = Some f /\
     (set_len_fails OpSetLen <> None -> f = empty_file) /\
     forall m, file_meta0 f = Some m \/ file_meta1 f = Some m -> validate m = Err DatabaseInvalid.
Proof.
  split; [reflexivity|]. split; [reflexivity|].
  split; [cbv; discriminate|]. split; [reflexivity|].
  apply (proj2 (open_create_result set_len_fails None (mkFs None false) eq_refl eq_refl));
    [cbv; discriminate | reflexivity].
Defined.



End OpenExtras.

(** ** PageIndex::new *)
Module PageIndexExtras.

Lemma sum_lengths_nonneg m ps :
  (forall q, In q ps -> 0 <= PageIndex_length m q) -> 0 <= sum_lengths m ps.
Proof.
  unfold sum_lengths. induction ps as [|p ps IH]; intros H; cbn [map fold_right]; [lia|].
  assert (0 <= PageIndex_length m p) by (apply H; left; reflexivity).
  assert (0 <= fold_right Z.add 0 (map (PageIndex_length m) ps)) by (apply IH; intros; apply H; right; assumption).
  lia.
Qed.

Lemma index_loop_linked : forall ps p fuel pa m acc len,
  linked pa m (p :: ps) -> (length ps < fuel)%nat ->
  (forall q, In q (p :: ps) -> 0 <= PageIndex_length m q) ->
  0 <= len -> len + sum_lengths m (p :: ps) < 2 ^ 32 ->
  index_loop fuel pa m p acc len = Some (Done (acc ++ p :: ps, len + sum_lengths m (p :: ps))).
Proof.
  induction ps as [|q ps IH]; intros p fuel pa m acc len Hl Hf Hnn Hlen Hsum;
    (destruct fuel as [|fuel]; [cbn [length] in Hf; lia|]);
    unfold sum_lengths in *; cbn [map fold_right] in *; cbn [index_loop].
  - destruct (Z.leb_spec (2 ^ 32) (len + PageIndex_length m p)); [lia|].
    cbn [linked] in Hl. rewrite Hl. do 3 f_equal. lia.
  - destruct (Z.leb_spec (2 ^ 32) (len + PageIndex_length m p)) as [Hov|_].
    { assert (0 <= fold_right Z.add 0 (map (PageIndex_length m) (q :: ps))).
      { apply (sum_lengths_nonneg m (q :: ps)). intros r Hr. apply Hnn. right. exact Hr. }
      cbn [map fold_right] in *. lia. }
    destruct Hl as [(n & Hov & Hg) Hl]. rewrite Hov, Hg.
    assert (0 <= PageIndex_length m p) by (apply Hnn; left; reflexivity).
    rewrite (IH q fuel pa m (acc ++ [p]) (len + PageIndex_length m p)); try assumption.
    + rewrite <- app_assoc. cbn [app]. unfold sum_lengths. cbn [map fold_right]. do 3 f_equal. lia.
    + cbn [length] in Hf. lia.
    + intros r Hr. apply Hnn. right. exact Hr.
    + lia.
    + unfold sum_lengths. cbn [map fold_right]. lia.
Qed.

(** X13: on a chain of pages linked through their overflow fields and
    ending in an overflow field of 0, [PageIndex::new] collects the pages in
    chain order, with capacity [124] per page and length the sum of the
    pages' stored lengths (when that sum fits a [u32]). *)
Theorem new_on_chain (pa : PageArray) (m : Mem) (p : PageInfo) (ps : list PageInfo) (fuel : nat) :
  linked pa m (p :: ps) -> (length (p :: ps) <= fuel)%nat ->
  (forall q, In q (p :: ps) -> 0 <= PageIndex_length m q) ->
  sum_lengths m (p :: ps) < 2 ^ 32 ->
  PageIndex_new fuel pa m p =
  Some (Done (mkPageIndex (p :: ps) (Z.of_nat (length (p :: ps)) * PI_KEYS_PER_PAGE)
                          (sum_lengths m (p :: ps)))).
Proof.
  intros Hl Hf Hnn Hs. unfold PageIndex_new.
  rewrite (index_loop_linked ps p fuel pa m [] 0); try assumption; try lia.
  reflexivity.
Qed.

Lemma new_on_chain_witness :
  linked (mkPageArray (3 * OS_PAGE_SIZE)) two_pages
    [mkPageInfo OS_PAGE_SIZE 1; mkPageInfo (2 * OS_PAGE_SIZE) 2] /\
  PageIndex_new 2 (mkPageArray (3 * OS_PAGE_SIZE)) two_pages (mkPageInfo OS_PAGE_SIZE 1) =
  Some (Done (mkPageIndex [mkPageInfo OS_PAGE_SIZE 1; mkPageInfo (2 * OS_PAGE_SIZE) 2] 248 12)).
Proof.
  assert (Hl : linked (mkPageArray (3 * OS_PAGE_SIZE)) two_pages
                 [mkPageInfo OS_PAGE_SIZE 1; mkPageInfo (2 * OS_PAGE_SIZE) 2]).
  { split; [exists 2; split; vm_compute; reflexivity | vm_compute; reflexivity]. }
  split; [exact Hl|].
  rewrite (new_on_chain _ _ _ [mkPageInfo (2 * OS_PAGE_SIZE) 2] 2 Hl).
  - reflexivity.
  - cbn. lia.
  - intros q Hq. destruct Hq as [<-|[<-|[]]]; vm_compute; discriminate.
  - vm_compute. reflexivity.
Defined.

(** X14: [PageIndex::new] never returns on a cycle of overflow links: if
    every page of a set has stored length 0 and an overflow field naming a
    page of the set, no number of loop rounds ends the loop. *)
Theorem new_loops_on_cycle (pa : PageArray) (m : Mem) (P : PageInfo -> Prop) :
  (forall p, P p -> PageIndex_length m p = 0 /\
     exists n q, overflow_page m p = Some n /\ get_page_info pa n = Done q /\ P q) ->
  forall fuel p, P p -> PageIndex_new fuel pa m p = None.
Proof.
  intros HP.
  assert (Hloop : forall fuel p acc len, P p -> 0 <= len < 2 ^ 32 ->
                    index_loop fuel pa m p acc len = None).
  { induction fuel as [|fuel IH]; intros p acc len Hp Hlen; [reflexivity|].
    destruct (HP p Hp) as (H0 & n & q & Hov & Hg & Hq).
    cbn [index_loop]. rewrite H0, Z.add_0_r.
    destruct (Z.leb_spec (2 ^ 32) len); [lia|].
    rewrite Hov, Hg. apply IH; assumption. }
  intros fuel p Hp. unfold PageIndex_new. rewrite Hloop; [reflexivity | assumption | lia].
Qed.

Lemma new_loops_on_cycle_witness :
  (forall p, (p = mkPageInfo OS_PAGE_SIZE 1 \/ p = mkPageInfo (2 * OS_PAGE_SIZE) 2) ->
     PageIndex_length page_cycle p = 0 /\
     exists n q, overflow_page page_cycle p = Some n /\
       get_page_info (mkPageArray (3 * OS_PAGE_SIZE)) n = Done q /\
       (q = mkPageInfo OS_PAGE_SIZE 1 \/ q = mkPageInfo (2 * OS_PAGE_SIZE) 2)) /\
  PageIndex_new 1000 (mkPageArray (3 * OS_PAGE_SIZE)) page_cycle (mkPageInfo OS_PAGE_SIZE 1) = None.
Proof.
  assert (H : forall p, (p = mkPageInfo OS_PAGE_SIZE 1 \/ p = mkPageInfo (2 * OS_PAGE_SIZE) 2) ->
     PageIndex_length page_cycle p = 0 /\
     exists n q, overflow_page page_cycle p = Some n /\
       get_page_info (mkPageArray (3 * OS_PAGE_SIZE)) n = Done q /\
       (q = mkPageInfo OS_PAGE_SIZE 1 \/ q = mkPageInfo (2 * OS_PAGE_SIZE) 2)).
  { intros p [-> | ->]; (split; [vm_compute; reflexivity|]).
    - exists 2, (mkPageInfo (2 * OS_PAGE_SIZE) 2).
      split; [vm_compute; reflexivity|]. split; [vm_compute; reflexivity|]. right; reflexivity.
    - exists 1, (mkPageInfo OS_PAGE_SIZE 1).
      split; [vm_compute; reflexivity|]. split; [vm_compute; reflexivity|]. left; reflexivity. }
  split; [exact H|].
  apply (new_loops_on_cycle _ _ _ H). left; reflexivity.
Defined.

(** X15: an overflow field naming a page past the end of the map makes
    [PageIndex::new] panic in [check_bounds]'s [assert!] rather than read
    outside the map. *)
Theorem new_panics_on_link_past_map (pa : PageArray) (m : Mem) (p : PageInfo) (n : Z) (fuel : nat) :
  overflow_page m p = Some n -> data_len pa < OS_PAGE_SIZE * n ->
  0 <= PageIndex_length m p < 2 ^ 32 ->
  PageIndex_new (S fuel) pa m p =
  Some (Panicked "assertion failed: self.data.len() >= OS_PAGE_SIZE * id as usize").
Proof.
  intros Hov Hn Hl. unfold PageIndex_new. cbn [index_loop].
  rewrite Z.add_0_l. destruct (Z.leb_spec (2 ^ 32) (PageIndex_length m p)); [lia|].
  rewrite Hov. unfold get_page_info, page_ptr, check_bounds.
  destruct (Z.eqb_spec n 0).
  - subst n. unfold overflow_page in Hov.
    destruct (0 <? read_u32 m (pi_ptr p + PI_OFFSET_OVERFLOW)) eqn:E; [|discriminate].
    apply Z.ltb_lt in E. injection Hov as Hov. lia.
  - destruct (Z.leb_spec (OS_PAGE_SIZE * n) (data_len pa)); [lia|]. reflexivity.
Qed.

Lemma new_panics_on_link_past_map_witness :
  overflow_page two_pages (mkPageInfo OS_PAGE_SIZE 1) = Some 2 /\
  data_len (mkPageArray OS_PAGE_SIZE) < OS_PAGE_SIZE * 2 /\
  PageIndex_new 5 (mkPageArray OS_PAGE_SIZE) two_pages (mkPageInfo OS_PAGE_SIZE 1) =
  Some (Panicked "assertion failed: self.data.len() >= OS_PAGE_SIZE * id as usize").
Proof.
  assert (Hov : overflow_page two_pages (mkPageInfo OS_PAGE_SIZE 1) = Some 2)
    by (vm_compute; reflexivity).
  split; [exact Hov|]. split; [vm_compute; reflexivity|].
  apply (new_panics_on_link_past_map _ _ _ 2 4 Hov); [vm_compute; reflexivity|].
  assert (E : PageIndex_length two_pages (mkPageInfo OS_PAGE_SIZE 1) = 5)
    by (vm_compute; reflexivity).
  rewrite E. lia.
Defined.

End PageIndexExtras.
